(** * Connection pools of the postgres check

    A shallow embedding of
    [postgres/datadog_checks/postgres/connections.py]:
    [MultiDatabaseConnectionPool] and its subclass
    [MultiDatabaseConnectionPoolLimited].

    Python objects are mutated in place and a mutation made before an
    exception is raised stays visible afterwards.  Every method is therefore
    a function from the state of the world (the attributes of [self] and the
    connection objects the pool refers to) to an outcome and a new state;
    the new state is returned also when the outcome is an exception. *)

From stdpp Require Import base option list strings gmap.
From Stdlib Require Import ZArith Lia.

Local Open Scope string_scope.
Local Open Scope Z_scope.
#[local] Set Warnings "-clear-no-such-hyp".

(** ** Outcomes of a call *)

(** The exceptions that the modelled code can meet.  [DriverError] stands for
    whatever the collaborators raise: the connection factory, and the
    [close] and [rollback] methods of a connection. *)
Inductive exn : Type :=
  | ValueError
  | KeyError
  | AttributeError
  | StopIteration
  | OverflowError
  | DriverError (code : nat).

Inductive result (A : Type) : Type :=
  | Ok (a : A)
  | Raise (e : exn).
Arguments Ok {A} a.
Arguments Raise {A} e.

(** ** Connection objects *)

(** A connection is a mutable object of the driver; the pool and its callers
    hold references to it.  [conn] is the identity of the object and [Heap]
    gives the current contents of every object. *)
Definition conn : Type := nat.

(** [closed] and [status] are the attributes the pool reads.  [close_error]
    and [rollback_error] say what the next [close()] and [rollback()] raise,
    if anything; [close_calls] counts the calls of [close()]. *)
Record ConnObj : Type := mkConnObj {
  closed : bool;
  status : Z;
  close_error : option exn;
  rollback_error : option exn;
  close_calls : nat
}.

Definition Heap : Type := conn -> ConnObj.

Definition heap_set (c : conn) (o : ConnObj) (h : Heap) : Heap :=
  fun c' => if Nat.eqb c' c then o else h c'.

(** [psycopg2.extensions.STATUS_READY] *)
Definition STATUS_READY : Z := 1.

(** [db.close()] *)
Definition conn_close (c : conn) (h : Heap) : result unit * Heap :=
  let o := h c in
  match close_error o with
  | Some e =>
      (Raise e,
       heap_set c (mkConnObj (closed o) (status o) (close_error o)
                             (rollback_error o) (S (close_calls o))) h)
  | None =>
      (Ok tt,
       heap_set c (mkConnObj true (status o) (close_error o)
                             (rollback_error o) (S (close_calls o))) h)
  end.

(** [db.rollback()] *)
Definition conn_rollback (c : conn) (h : Heap) : result unit * Heap :=
  let o := h c in
  match rollback_error o with
  | Some e => (Raise e, h)
  | None =>
      (Ok tt,
       heap_set c (mkConnObj (closed o) STATUS_READY (close_error o)
                             (rollback_error o) (close_calls o)) h)
  end.

(** The connection factory handed to the constructor: [parameters] is
    [len(inspect.signature(connect_fn).parameters)] and [call] is what
    [connect_fn(dbname)] does. *)
Record Factory : Type := mkFactory {
  parameters : nat;
  call : string -> Heap -> result conn * Heap
}.

(** ** Dictionaries

    A Python [dict] keeps its keys in insertion order, and the pool depends
    on that order ([next(iter(d))], [list(d.items())], the first minimum
    found by [min]).  [_conns] is therefore an association list without
    repeated keys. *)
Section Dict.
Context {V : Type}.

Definition dict : Type := list (string * V).

(** [d.get(k)] *)
Fixpoint dict_get (k : string) (d : dict) : option V :=
  match d with
  | [] => None
  | (k', v) :: d' => if String.eqb k' k then Some v else dict_get k d'
  end.

(** [d.pop(k, default)]: the value removed, if any, and what is left. *)
Fixpoint dict_pop (k : string) (d : dict) : option V * dict :=
  match d with
  | [] => (None, [])
  | (k', v) :: d' =>
      if String.eqb k' k then (Some v, d')
      else let '(r, d'') := dict_pop k d' in (r, (k', v) :: d'')
  end.

(** [d[k] = v]: a key already present keeps its place, a new key goes
    last. *)
Fixpoint dict_set (k : string) (v : V) (d : dict) : dict :=
  match d with
  | [] => [(k, v)]
  | (k', v') :: d' =>
      if String.eqb k' k then (k, v) :: d' else (k', v') :: dict_set k v d'
  end.

Definition dict_keys (d : dict) : list string := map fst d.
End Dict.
Arguments dict V : clear implicits.

(** ** The state of a pool *)

Record Stats : Type := mkStats {
  connection_opened : Z;
  connection_pruned : Z;
  connection_closed : Z;
  connection_closed_failed : Z
}.

(** The entries of [_conns] are built in [get_connection] only, from a
    connection, a deadline and the time of the access.  A time is a
    [datetime], counted in microseconds (the resolution of [datetime]) since
    [datetime.min], the first instant of the year 1. *)
Record ConnectionWithTTLAndLastAccess : Type := mkEntry {
  connection : conn;
  deadline : Z;
  last_access : Z
}.

(** The attributes of [self] together with the heap of connection objects.
    [has_log] tells whether [self] has an attribute [_log]: neither class
    assigns it.  [max_conn] and [dbs_usage] belong to the limited pool; the
    methods of the base class never touch them. *)
Record state : Type := mkState {
  _stats : Stats;
  _conns : dict ConnectionWithTTLAndLastAccess;
  connect_fn : Factory;
  has_log : bool;
  max_conn : Z;
  dbs_usage : gmap string bool;
  heap : Heap
}.

Definition set_stats (s : Stats) (st : state) : state :=
  mkState s (_conns st) (connect_fn st) (has_log st) (max_conn st)
          (dbs_usage st) (heap st).
Definition set_conns (d : dict ConnectionWithTTLAndLastAccess) (st : state)
  : state :=
  mkState (_stats st) d (connect_fn st) (has_log st) (max_conn st)
          (dbs_usage st) (heap st).
Definition set_connect_fn (f : Factory) (st : state) : state :=
  mkState (_stats st) (_conns st) f (has_log st) (max_conn st)
          (dbs_usage st) (heap st).
Definition set_dbs_usage (u : gmap string bool) (st : state) : state :=
  mkState (_stats st) (_conns st) (connect_fn st) (has_log st) (max_conn st)
          u (heap st).
Definition set_heap (h : Heap) (st : state) : state :=
  mkState (_stats st) (_conns st) (connect_fn st) (has_log st) (max_conn st)
          (dbs_usage st) h.

(** ** The monad of methods *)

Definition M (A : Type) : Type := state -> result A * state.

#[export] Instance M_ret : MRet M := fun A a st => (Ok a, st).
#[export] Instance M_bind : MBind M := fun A B f m st =>
  match m st with
  | (Ok a, st') => f a st'
  | (Raise e, st') => (Raise e, st')
  end.

Definition raise {A : Type} (e : exn) : M A := fun st => (Raise e, st).
Definition get_state : M state := fun st => (Ok st, st).
Definition modify (f : state -> state) : M unit := fun st => (Ok tt, f st).

(** [try: body except Exception: handler] *)
Definition try_except {A : Type} (body : M A) (handler : exn -> M A) : M A :=
  fun st =>
    match body st with
    | (Ok a, st') => (Ok a, st')
    | (Raise e, st') => handler e st'
    end.

(** [for x in l: body] over a list fixed before the loop starts. *)
Fixpoint for_each {A : Type} (l : list A) (body : A -> M unit) : M unit :=
  match l with
  | [] => mret tt
  | x :: l' => body x ;; for_each l' body
  end.

(** [while cond: body], with the local variables of the loop in [a].  A loop
    need not end, so the iterations are counted: [None] means that [fuel]
    iterations were not enough. *)
Fixpoint while {A : Type} (fuel : nat) (cond : state -> bool)
    (body : A -> M A) (a : A) (st : state) : option (result A * state) :=
  if cond st then
    match fuel with
    | O => None
    | S fuel' =>
        match body a st with
        | (Ok a', st') => while fuel' cond body a' st'
        | (Raise e, st') => Some (Raise e, st')
        end
    end
  else Some (Ok a, st).

(** An outcome computed without touching the state. *)
Definition lift_result {A : Type} (r : result A) : M A := fun st => (r, st).

(** Lifting a connection method to the pool state. *)
Definition on_heap {A : Type} (f : Heap -> result A * Heap) : M A :=
  fun st => let '(r, h) := f (heap st) in (r, set_heap h st).

(** [self._stats.<counter> += 1] *)
Definition incr_opened : M unit := modify (fun st =>
  let s := _stats st in
  set_stats (mkStats (connection_opened s + 1) (connection_pruned s)
                     (connection_closed s) (connection_closed_failed s)) st).
Definition incr_pruned : M unit := modify (fun st =>
  let s := _stats st in
  set_stats (mkStats (connection_opened s) (connection_pruned s + 1)
                     (connection_closed s) (connection_closed_failed s)) st).
Definition incr_closed : M unit := modify (fun st =>
  let s := _stats st in
  set_stats (mkStats (connection_opened s) (connection_pruned s)
                     (connection_closed s + 1) (connection_closed_failed s)) st).
Definition incr_closed_failed : M unit := modify (fun st =>
  let s := _stats st in
  set_stats (mkStats (connection_opened s) (connection_pruned s)
                     (connection_closed s) (connection_closed_failed s + 1)) st).

(** ** Dates and durations

    [datetime] and [timedelta] of the standard library have a bounded range
    and raise [OverflowError] outside it. *)

Definition MICROSECONDS_PER_DAY : Z := 86400000000.

(** A [timedelta] holds at most this many days, in either direction. *)
Definition TIMEDELTA_MAX_DAYS : Z := 999999999.

(** The days from [datetime.min] to the end of [datetime.max], the last
    instant of the year 9999. *)
Definition DATETIME_DAYS : Z := 3652059.

(** [datetime.timedelta(milliseconds=ms)], in microseconds. *)
Definition timedelta_milliseconds (ms : Z) : result Z :=
  let us := 1000 * ms in
  if (- TIMEDELTA_MAX_DAYS * MICROSECONDS_PER_DAY <=? us)
     && (us <? (TIMEDELTA_MAX_DAYS + 1) * MICROSECONDS_PER_DAY)
  then Ok us else Raise OverflowError.

(** [t + delta] for a [datetime] and a [timedelta]. *)
Definition datetime_add (t delta : Z) : result Z :=
  let r := t + delta in
  if (0 <=? r) && (r <? DATETIME_DAYS * MICROSECONDS_PER_DAY)
  then Ok r else Raise OverflowError.

(** [now + datetime.timedelta(milliseconds=ttl_ms)], where [now] is the
    reading of the clock. *)
Definition deadline_of (now ttl_ms : Z) : result Z :=
  match timedelta_milliseconds ttl_ms with
  | Ok delta => datetime_add now delta
  | Raise e => Raise e
  end.

(** ** Tuples

    [_terminate_connection_unsafe] takes the popped named tuple apart by
    position, so the tuple is also needed as a sequence of values. *)
Inductive pyval : Type :=
  | VNone
  | VConn (c : conn)
  | VTime (t : Z).

(** The fields of a popped value in order; a missing key gives the default
    [ConnectionWithTTLAndLastAccess(None, None, None)]. *)
Definition astuple (popped : option ConnectionWithTTLAndLastAccess)
  : list pyval :=
  match popped with
  | Some e => [VConn (connection e); VTime (deadline e); VTime (last_access e)]
  | None => [VNone; VNone; VNone]
  end.

(** [x, y = t]: Python raises [ValueError] unless [t] has exactly two
    items. *)
Definition unpack2 (t : list pyval) : result (pyval * pyval) :=
  match t with
  | [x; y] => Ok (x, y)
  | _ => Raise ValueError
  end.

Definition is_none (v : pyval) : bool :=
  match v with VNone => true | _ => false end.

(** [db.close()] on a value: only a connection has the method. *)
Definition py_close (db : pyval) : M unit :=
  match db with
  | VConn c => on_heap (conn_close c)
  | _ => raise AttributeError
  end.

(** [self._conns.pop(dbname, ConnectionWithTTLAndLastAccess(None, None, None))] *)
Definition pop_conn (dbname : string)
  : M (option ConnectionWithTTLAndLastAccess) :=
  fun st =>
    let '(popped, rest) := dict_pop dbname (_conns st) in
    (Ok popped, set_conns rest st).

(** [self._log.exception(...)] *)
Definition log_exception : M unit :=
  fun st => if has_log st then (Ok tt, st) else (Raise AttributeError, st).

(** ** The base pool *)
Module MultiDatabaseConnectionPool.

Definition Stats_init : Stats := mkStats 0 0 0 0.

(** [__init__(self, connect_fn)].  [inspect_has_signature] is
    [hasattr(inspect, 'signature')], true on every Python 3.  The limited
    pool's attributes start as its own constructor leaves them. *)
Definition __init__ (inspect_has_signature : bool) (connect_fn : Factory)
    (h : Heap) : result state :=
  let self := mkState Stats_init [] connect_fn false 0 ∅ h in
  if inspect_has_signature then
    if negb (Nat.eqb (parameters connect_fn) 1) then Raise ValueError
    else Ok self
  else Ok self.

Definition _terminate_connection_unsafe (dbname : string) : M bool :=
  popped ← pop_conn dbname;
  '(db, _) ← lift_result (unpack2 (astuple popped));
  if is_none db then mret true
  else
    try_except
      (incr_closed ;; py_close db ;; mret true)
      (fun _ => incr_closed_failed ;; log_exception ;; mret false).

(** [now] is the reading of [datetime.datetime.now()]. *)
Definition prune_connections (now : Z) : M unit :=
  st ← get_state;
  for_each (_conns st) (fun '(dbname, conn) =>
    if deadline conn <? now then
      incr_pruned ;; _terminate_connection_unsafe dbname ;; mret tt
    else mret tt).

Definition close_all_connections (fuel : nat)
  : state -> option (result bool * state) :=
  while fuel
    (fun st => negb (Nat.eqb (length (_conns st)) 0))
    (fun success =>
       st ← get_state;
       dbname ← match _conns st with
                | (k, _) :: _ => mret k
                | [] => raise StopIteration
                end;
       ok ← _terminate_connection_unsafe dbname;
       mret (if negb ok then false else success))
    true.

(** [self.connect_fn(dbname)] *)
Definition connect (dbname : string) : M conn :=
  fun st =>
    let '(r, h) := call (connect_fn st) dbname (heap st) in
    (r, set_heap h st).

(** The clock is read three times: in [prune_connections] ([now_p]), for
    the deadline ([now_d]) and for the time of access ([now_a]). *)
Definition get_connection (now_p now_d now_a : Z) (dbname : string)
    (ttl_ms : Z) : M conn :=
  prune_connections now_p ;;
  conn ← pop_conn dbname;
  db ← match conn with
       | None => incr_opened ;; connect dbname
       | Some e =>
           st ← get_state;
           if closed (heap st (connection e))
           then incr_opened ;; connect dbname
           else mret (connection e)
       end;
  st ← get_state;
  (if negb (status (heap st db) =? STATUS_READY)
   then on_heap (conn_rollback db) else mret tt) ;;
  deadline ← lift_result (deadline_of now_d ttl_ms);
  modify (fun st =>
    set_conns (dict_set dbname (mkEntry db deadline now_a) (_conns st)) st) ;;
  mret db.

End MultiDatabaseConnectionPool.

(** ** The limited pool *)
Module MultiDatabaseConnectionPoolLimited.
Import MultiDatabaseConnectionPool.

Definition __init__ (inspect_has_signature : bool) (connect_fn : Factory)
    (max_conn : Z) (h : Heap) : result state :=
  match MultiDatabaseConnectionPool.__init__ inspect_has_signature
          connect_fn h with
  | Raise e => Raise e
  | Ok self =>
      let '(mkState stats _ fn log _ _ objs) := self in
      Ok (mkState stats [] fn log max_conn ∅ objs)
  end.

(** [min(self._conns, key=lambda t: self._conns.get(t).last_access)] on a
    dictionary that is not empty: the first key, in the order of the
    dictionary, whose entry has the least [last_access]. *)
Fixpoint min_last_access (best : string * ConnectionWithTTLAndLastAccess)
    (d : dict ConnectionWithTTLAndLastAccess) : string :=
  match d with
  | [] => fst best
  | x :: d' =>
      if last_access (snd x) <? last_access (snd best)
      then min_last_access x d'
      else min_last_access best d'
  end.

Definition _evict_lru : M unit :=
  st ← get_state;
  match _conns st with
  | [] => mret tt
  | first :: others =>
      let lru := min_last_access first others in
      used ← match dbs_usage st !! lru with
             | Some b => mret b
             | None => raise KeyError
             end;
      if (used : bool) then mret tt
      else
        popped ← pop_conn lru;
        match popped with
        | Some _ => mret tt
        | None => raise KeyError
        end
  end.

(** The clock is read once by the pool's own call of [prune_connections]
    ([now_0]) and three times by the base method. *)
Definition get_connection (fuel : nat) (now_0 now_p now_d now_a : Z)
    (dbname : string) (ttl_ms : Z)
  : state -> option (result conn * state) :=
  fun st0 =>
    match prune_connections now_0 st0 with
    | (Raise e, st) => Some (Raise e, st)
    | (Ok _, st) =>
        let db_pool_len := Z.of_nat (length (_conns st)) in
        if db_pool_len <? max_conn st then
          Some ((conn ← MultiDatabaseConnectionPool.get_connection
                          now_p now_d now_a dbname ttl_ms;
                 modify (fun st =>
                   set_dbs_usage (<[dbname := true]> (dbs_usage st)) st) ;;
                 mret conn) st)
        else
          match while fuel
                  (fun st => max_conn st <? Z.of_nat (length (_conns st)))
                  (fun _ => _evict_lru) tt st with
          | None => None
          | Some (Raise e, st') => Some (Raise e, st')
          | Some (Ok _, st') =>
              Some (MultiDatabaseConnectionPool.get_connection
                      now_p now_d now_a dbname ttl_ms st')
          end
    end.

End MultiDatabaseConnectionPoolLimited.

(** Short names for the two classes. *)
Module Pool := MultiDatabaseConnectionPool.
Module Limited := MultiDatabaseConnectionPoolLimited.

(** ** Fixtures: a driver whose connections open, close and roll back
    without error, and the scenarios that the theorems below run. *)

Definition fresh_obj : ConnObj := mkConnObj false STATUS_READY None None 0.

Definition heap0 : Heap := fun _ => fresh_obj.

(** The connection object that the example factory returns for a database. *)
Definition name_id (dbname : string) : conn :=
  if String.eqb dbname "a" then 1%nat
  else if String.eqb dbname "b" then 2%nat
  else if String.eqb dbname "c" then 3%nat
  else 0%nat.

Definition example_factory : Factory :=
  mkFactory 1 (fun dbname h => (Ok (name_id dbname), h)).

(** A factory that cannot connect. *)
Definition failing_factory : Factory :=
  mkFactory 1 (fun _ h => (Raise (DriverError 7), h)).

(** A pool, as the constructors leave it, with the given contents. *)
Definition pool_with (conns : dict ConnectionWithTTLAndLastAccess)
    (limit : Z) (usage : gmap string bool) : state :=
  mkState Pool.Stats_init conns example_factory false limit usage heap0.

(** The state a call leaves behind, whatever its outcome: a caller that
    catches the exception goes on with the same pool. *)
Definition state_after {A : Type} (r : option (result A * state))
  : option state :=
  snd <$> r.

Definition outcome {A : Type} (r : option (result A * state))
  : option (result A) :=
  fst <$> r.

Definition constructed (r : result state) : option state :=
  match r with Ok st => Some st | Raise _ => None end.

(** Nothing in [d] is past its deadline at [now]. *)
Definition all_live (now : Z) (d : dict ConnectionWithTTLAndLastAccess)
  : Prop :=
  Forall (fun ke => now <= deadline ke.2) d.

Definition prune_body (now : Z)
    (item : string * ConnectionWithTTLAndLastAccess) : M unit :=
  let '(dbname, conn) := item in
  if deadline conn <? now then
    incr_pruned ;; Pool._terminate_connection_unsafe dbname ;; mret tt
  else mret tt.

(** Two entries, both past their deadline at time 20. *)
Definition two_expired : state :=
  pool_with [("a", mkEntry 1%nat 10 0); ("b", mkEntry 2%nat 10 1)] 0 ∅.

(** A limited pool of capacity 2 after [get_connection] for "a", "b" and
    "c", at times 0, 1 and 2, with a TTL of one second. *)
Definition acquire_abc (fuel : nat) : option state :=
  st0 ← constructed (Limited.__init__ true example_factory 2 heap0);
  st1 ← state_after (Limited.get_connection fuel 0 0 0 0 "a" 1000 st0);
  st2 ← state_after (Limited.get_connection fuel 1 1 1 1 "b" 1000 st1);
  state_after (Limited.get_connection fuel 2 2 2 2 "c" 1000 st2).

(** A limited pool of capacity 1: "a" is acquired, [close_all_connections]
    is called (its exception is caught by the caller), then "b" and "a" are
    acquired. *)
Definition acquire_a_close_b_a (fuel : nat) : option state :=
  st0 ← constructed (Limited.__init__ true example_factory 1 heap0);
  st1 ← state_after (Limited.get_connection fuel 0 0 0 0 "a" 1000 st0);
  st2 ← state_after (Pool.close_all_connections fuel st1);
  st3 ← state_after (Limited.get_connection fuel 1 1 1 1 "b" 1000 st2);
  state_after (Limited.get_connection fuel 2 2 2 2 "a" 1000 st3).

(** Every entry of the pool is marked in [dbs_usage]. *)
Definition all_in_use (st : state) : Prop :=
  Forall (fun k => dbs_usage st !! k = Some true) (dict_keys (_conns st)).

(** As [acquire_abc], but the caller clears the in-use marks of "a" and "b"
    before "c" is acquired. *)
Definition acquire_abc_unmarked (fuel : nat) : option state :=
  st0 ← constructed (Limited.__init__ true example_factory 2 heap0);
  st1 ← state_after (Limited.get_connection fuel 0 0 0 0 "a" 1000 st0);
  st2 ← state_after (Limited.get_connection fuel 1 1 1 1 "b" 1000 st1);
  state_after
    (Limited.get_connection fuel 2 2 2 2 "c" 1000
       (set_dbs_usage (<["a" := false]> (<["b" := false]> ∅)) st2)).

(** The state that [acquire_a_close_b_a] ends in. *)
Definition contended : state :=
  mkState (mkStats 3 0 0 0)
          [("b", mkEntry 2%nat 1000001 1); ("a", mkEntry 1%nat 1000002 2)]
          example_factory false 1
          (<["a" := true]> (<["b" := true]> ∅)) heap0.

(** One idle entry whose in-use mark a caller has cleared, in a pool of
    capacity 1. *)
Definition one_idle : state :=
  pool_with [("a", mkEntry 1%nat 1000000 0)] 1 {["a" := false]}.

(** The pool after "a" was acquired at time 0 with a TTL of one second. *)
Definition after_first_a : state :=
  (Pool.get_connection 0 0 0 "a" 1000 (pool_with [] 0 ∅)).2.

(** A pool whose entry for "a" holds a connection that was closed behind its
    back, and whose factory cannot connect. *)
Definition stale_pool : state :=
  mkState Pool.Stats_init [("a", mkEntry 1%nat 1000000 0)] failing_factory false
          0 ∅ (heap_set 1%nat (mkConnObj true STATUS_READY None None 1) heap0).

(** The same pool with another parameter count recorded for its factory. *)
Definition with_parameters (n : nat) (st : state) : state :=
  set_connect_fn (mkFactory n (call (connect_fn st))) st.

(** A factory that takes two parameters. *)
Definition two_parameter_factory : Factory :=
  mkFactory 2 (call example_factory).

(** A pool whose entry for "a" holds an open connection that is in a failed
    transaction (its status is [STATUS_IN_TRANSACTION], 2) and whose
    rollback raises. *)
Definition broken_pool : state :=
  mkState Pool.Stats_init [("a", mkEntry 1%nat 1000000 0)] example_factory
          false 0 ∅
          (heap_set 1%nat
             (mkConnObj false 2 None (Some (DriverError 9)) 0) heap0).

(** The deadline [now + ttl_ms] exists: the duration fits a [timedelta] and
    the sum is a [datetime]. *)
Definition deadline_representable (now ttl_ms : Z) : Prop :=
  - TIMEDELTA_MAX_DAYS * MICROSECONDS_PER_DAY <= 1000 * ttl_ms
    < (TIMEDELTA_MAX_DAYS + 1) * MICROSECONDS_PER_DAY
  ∧ 0 <= now + 1000 * ttl_ms < DATETIME_DAYS * MICROSECONDS_PER_DAY.

(** Some entry of [d] is past its deadline at [now]. *)
Definition some_expired (now : Z)
    (d : dict ConnectionWithTTLAndLastAccess) : Prop :=
  Exists (fun ke => deadline ke.2 < now) d.

(** [self._stats.connection_pruned += 1] on a state, as a function. *)
Definition count_pruned (st : state) : state :=
  set_stats (mkStats (connection_opened (_stats st))
                     (connection_pruned (_stats st) + 1)
                     (connection_closed (_stats st))
                     (connection_closed_failed (_stats st))) st.

(** [self._stats.connection_opened += 1] on a state, as a function. *)
Definition count_opened (st : state) : state :=
  set_stats (mkStats (connection_opened (_stats st) + 1)
                     (connection_pruned (_stats st))
                     (connection_closed (_stats st))
                     (connection_closed_failed (_stats st))) st.

(** No entry of the pool is marked in use: every key of [_conns] is in
    [dbs_usage] with the value [False]. *)
Definition all_idle (st : state) : Prop :=
  ∀ k, k ∈ dict_keys (_conns st) → dbs_usage st !! k = Some false.

(** A limited pool of capacity 1 holding two idle entries; "a" was accessed
    before "b". *)
Definition two_idle : state :=
  pool_with [("b", mkEntry 2%nat 1000000 5); ("a", mkEntry 1%nat 1000000 3)]
            1 (<["a" := false]> (<["b" := false]> ∅)).

(** A limited pool of capacity 1 that is full: it holds "a", marked in
    use. *)
Definition one_busy : state :=
  pool_with [("a", mkEntry 1%nat 1000000 0)] 1 {["a" := true]}.

(** ** The metadata job: [postgres/datadog_checks/postgres/metadata.py] *)

(** [s.startswith(prefix)] *)
Definition startswith (s prefix : string) : bool := String.prefix prefix s.

(** The two attributes that [PostgresMetadata.run_job] assigns before it
    reports, from the tags [_tags] of the job: [self.tags] and
    [self._tags_no_db]. *)
Definition run_job_tags (_tags : list string) : list string * list string :=
  let tags :=
    List.filter (fun t => negb (startswith t "dd.internal")) _tags in
  let _tags_no_db := List.filter (fun t => negb (startswith t "db:")) tags in
  (tags, _tags_no_db).

(** Truth value of a list or [None] in a condition. *)
Definition truthy {A : Type} (l : option (list A)) : bool :=
  match l with
  | Some (_ :: _) => true
  | _ => false
  end.

(** [PostgresMetadata._dbtags(self, db, *extra_tags)]; [_tags_no_db] is the
    attribute of [self], [None] until the job has run. *)
Definition _dbtags (_tags_no_db : option (list string)) (db : string)
    (extra_tags : list string) : list string :=
  let t := ["db:" ++ db] in
  let t := if truthy (Some extra_tags) then (t ++ extra_tags)%list else t in
  let t :=
    if truthy _tags_no_db then (t ++ default [] _tags_no_db)%list else t in
  t.

(** The [shutdown_cb] that [PostgresMetadata.__init__] hands to the job:
    close all connections of the pool, then call the given
    [shutdown_callback]. *)
Definition shutdown_cb {A : Type} (fuel : nat)
    (shutdown_callback : state -> result A * state) (pool : state)
  : option (result A * state) :=
  match Pool.close_all_connections fuel pool with
  | None => None
  | Some (Raise e, st) => Some (Raise e, st)
  | Some (Ok _, st) => Some (shutdown_callback st)
  end.

(** The pool after "b" was acquired at time 0 with a TTL of one millisecond
    and "a" at time 10 with a TTL of one second. *)
Definition after_b_then_a : state :=
  (Pool.get_connection 10 10 10 "a" 1000
     (Pool.get_connection 0 0 0 "b" 1 (pool_with [] 0 ∅)).2).2.

(** Unfolding the monadic plumbing of a method applied to a state. *)
Ltac run_method :=
  unfold mbind, M_bind, mret, M_ret, get_state, modify, on_heap, pop_conn,
    incr_opened, Pool.connect, raise, lift_result in *.

(** ** Dictionaries: lemmas *)
Section DictLemmas.
Context {V : Type}.
Implicit Types (d : dict V) (k : string) (v : V).

Lemma dict_get_set_eq k v d : dict_get k (dict_set k v d) = Some v.
Proof.
  induction d as [|[k' v'] d IH]; simpl.
  - by rewrite String.eqb_refl.
  - destruct (String.eqb k' k) eqn:E; simpl.
    + by rewrite String.eqb_refl.
    + by rewrite E.
Qed.

Lemma dict_get_pop_fst k d : (dict_pop k d).1 = dict_get k d.
Proof.
  induction d as [|[k' v'] d IH]; simpl; [done|].
  destruct (String.eqb k' k); [done|].
  by destruct (dict_pop k d).
Qed.

Lemma dict_keys_pop_subseteq k d : dict_keys (dict_pop k d).2 ⊆ dict_keys d.
Proof.
  induction d as [|[k' v'] d IH]; simpl; [done|].
  destruct (String.eqb k' k); simpl.
  - set_solver.
  - destruct (dict_pop k d) as [r d'']; simpl in *. set_solver.
Qed.

Lemma dict_get_None_keys k d : k ∉ dict_keys d → dict_get k d = None.
Proof.
  induction d as [|[k' v'] d IH]; simpl; [done|].
  intros Hk. destruct (String.eqb_spec k' k) as [->|Hne]; [set_solver|].
  apply IH. set_solver.
Qed.

(** A dictionary has no repeated key, so a popped key is gone. *)
Lemma dict_get_pop_None k d :
  NoDup (dict_keys d) → dict_get k (dict_pop k d).2 = None.
Proof.
  induction d as [|[k' v'] d IH]; simpl; [done|].
  intros [Hk' Hd]%NoDup_cons.
  destruct (String.eqb_spec k' k) as [->|Hne]; simpl.
  - by apply dict_get_None_keys.
  - destruct (dict_pop k d) as [r d''] eqn:E; simpl in *.
    destruct (String.eqb_spec k' k); [done|]. by apply IH.
Qed.

Lemma dict_pop_NoDup k d :
  NoDup (dict_keys d) → NoDup (dict_keys (dict_pop k d).2).
Proof.
  induction d as [|[k' v'] d IH]; simpl; [done|].
  intros [Hk' Hd]%NoDup_cons.
  destruct (String.eqb k' k); simpl; [done|].
  pose proof (dict_keys_pop_subseteq k d) as Hsub.
  destruct (dict_pop k d) as [r d''] eqn:E; simpl in *.
  apply NoDup_cons. split; [set_solver | by apply IH].
Qed.
Lemma dict_keys_set k v d x :
  x ∈ dict_keys (dict_set k v d) ↔ x = k ∨ x ∈ dict_keys d.
Proof.
  induction d as [|[k' v'] d IH]; simpl; [set_solver|].
  destruct (String.eqb_spec k' k) as [->|Hne]; simpl; set_solver.
Qed.

Lemma dict_set_NoDup k v d :
  NoDup (dict_keys d) → NoDup (dict_keys (dict_set k v d)).
Proof.
  induction d as [|[k' v'] d IH]; simpl.
  - intros _. apply NoDup_singleton.
  - intros [Hk' Hd]%NoDup_cons.
    destruct (String.eqb_spec k' k) as [->|Hne]; simpl.
    + by apply NoDup_cons.
    + apply NoDup_cons. split; [|by apply IH].
      rewrite dict_keys_set. intros [->|?]; done.
Qed.

End DictLemmas.

(** ** Deadlines *)

Lemma deadline_of_cases now ttl :
  deadline_of now ttl = Ok (now + 1000 * ttl)
  ∨ deadline_of now ttl = Raise OverflowError.
Proof.
  unfold deadline_of, timedelta_milliseconds, datetime_add.
  repeat (case_match; simplify_eq/=); auto.
Qed.

Lemma deadline_of_representable now ttl :
  deadline_representable now ttl → deadline_of now ttl = Ok (now + 1000 * ttl).
Proof.
  intros [[H1 H2] [H3 H4]].
  unfold deadline_of, timedelta_milliseconds, datetime_add. cbv zeta.
  apply Z.leb_le in H1, H3. apply Z.ltb_lt in H2, H4.
  rewrite H1, H2. cbn [andb]. cbv iota beta. by rewrite H3, H4.
Qed.


(** ** The base pool: what the terminate path does *)

(** The popped tuple has three fields and is unpacked into two names: the
    assignment raises [ValueError] after the entry has left the dictionary
    and before anything is closed or counted. *)
Lemma terminate_unpack_fails (dbname : string) (st : state) :
  Pool._terminate_connection_unsafe dbname st
  = (Raise ValueError, set_conns (dict_pop dbname (_conns st)).2 st).
Proof.
  unfold Pool._terminate_connection_unsafe, mbind, M_bind, pop_conn.
  destruct (dict_pop dbname (_conns st)) as [[e|] rest]; reflexivity.
Qed.

Lemma prune_connections_unfold (now : Z) (st : state) :
  Pool.prune_connections now st = for_each (_conns st) (prune_body now) st.
Proof. reflexivity. Qed.

Lemma prune_body_live now k e st :
  now <= deadline e → prune_body now (k, e) st = (Ok tt, st).
Proof.
  intros H. unfold prune_body.
  destruct (Z.ltb_spec (deadline e) now); [lia | reflexivity].
Qed.

Lemma prune_body_expired now k e st :
  deadline e < now →
  prune_body now (k, e) st
  = (Raise ValueError,
     set_conns (dict_pop k (_conns st)).2
       (set_stats (mkStats (connection_opened (_stats st))
                           (connection_pruned (_stats st) + 1)
                           (connection_closed (_stats st))
                           (connection_closed_failed (_stats st))) st)).
Proof.
  intros H. unfold prune_body.
  destruct (Z.ltb_spec (deadline e) now); [|lia].
  unfold mbind, M_bind at 1. unfold incr_pruned, modify.
  unfold M_bind. by rewrite terminate_unpack_fails.
Qed.

Lemma for_each_prune_live now l st :
  all_live now l → for_each l (prune_body now) st = (Ok tt, st).
Proof.
  unfold all_live. induction 1 as [|[k e] l Hk Hl IH]; cbn [for_each]; [done|].
  unfold mbind, M_bind. rewrite prune_body_live by done. apply IH.
Qed.

Lemma for_each_prune_ok_inv now l st u st' :
  for_each l (prune_body now) st = (Ok u, st') → all_live now l ∧ st' = st.
Proof.
  induction l as [|[k e] l IH]; cbn [for_each].
  - intros [= _ <-]. split; [constructor | done].
  - unfold mbind, M_bind.
    destruct (Z.lt_ge_cases (deadline e) now) as [Hexp|Hlive].
    + by rewrite prune_body_expired.
    + rewrite prune_body_live by lia. intros [Hl ->]%IH.
      split; [by constructor | done].
Qed.

(** When nothing is past its deadline the prune pass changes nothing. *)
Lemma prune_connections_live now st :
  all_live now (_conns st) → Pool.prune_connections now st = (Ok tt, st).
Proof. rewrite prune_connections_unfold. apply for_each_prune_live. Qed.

(** The prune pass ends normally only when it found nothing to prune. *)
Lemma prune_connections_ok_inv now st u st' :
  Pool.prune_connections now st = (Ok u, st') →
  all_live now (_conns st) ∧ st' = st.
Proof. rewrite prune_connections_unfold. apply for_each_prune_ok_inv. Qed.

Lemma for_each_prune_first_expired now l1 k e l2 st :
  all_live now l1 →
  deadline e < now →
  for_each (l1 ++ (k, e) :: l2)%list (prune_body now) st
  = (Raise ValueError,
     set_conns (dict_pop k (_conns st)).2
       (set_stats (mkStats (connection_opened (_stats st))
                           (connection_pruned (_stats st) + 1)
                           (connection_closed (_stats st))
                           (connection_closed_failed (_stats st))) st)).
Proof.
  intros Hl He. revert Hl. unfold all_live.
  induction 1 as [|[k' e'] l1 Hk Hl IH]; cbn [for_each app].
  - unfold mbind, M_bind. by rewrite prune_body_expired.
  - unfold mbind, M_bind. rewrite prune_body_live by done. apply IH.
Qed.

(** The first entry past its deadline is counted and removed, and the pass
    stops there with the [ValueError] of the terminate path. *)
Lemma prune_connections_first_expired now st l1 k e l2 :
  _conns st = (l1 ++ (k, e) :: l2)%list →
  all_live now l1 →
  deadline e < now →
  Pool.prune_connections now st
  = (Raise ValueError,
     set_conns (dict_pop k (_conns st)).2
       (set_stats (mkStats (connection_opened (_stats st))
                           (connection_pruned (_stats st) + 1)
                           (connection_closed (_stats st))
                           (connection_closed_failed (_stats st))) st)).
Proof.
  intros Hc Hl He. rewrite prune_connections_unfold.
  etrans; [|by apply (for_each_prune_first_expired now l1 k e l2)].
  by rewrite <- Hc.
Qed.

(** [close_all_connections] on a pool that is not empty: the first key is
    popped and the [ValueError] leaves the loop. *)
Lemma close_all_connections_raises fuel st k e rest :
  _conns st = (k, e) :: rest →
  Pool.close_all_connections (S fuel) st
  = Some (Raise ValueError, set_conns rest st).
Proof.
  intros Hc. unfold Pool.close_all_connections. simpl. rewrite Hc. simpl.
  unfold mbind, M_bind, get_state. rewrite Hc. unfold mret, M_ret.
  rewrite terminate_unpack_fails, Hc. simpl. by rewrite String.eqb_refl.
Qed.

Lemma close_all_connections_empty fuel st :
  _conns st = [] → Pool.close_all_connections fuel st = Some (Ok true, st).
Proof.
  intros Hc. unfold Pool.close_all_connections.
  destruct fuel; simpl; by rewrite Hc.
Qed.

(** ** The limited pool: eviction and the loop around it *)

(** Eviction takes the entry out of the dictionary and does nothing else:
    no connection object and no counter changes. *)
Lemma evict_lru_leaves_heap_and_stats (st : state) :
  heap (Limited._evict_lru st).2 = heap st ∧ _stats (Limited._evict_lru st).2 = _stats st.
Proof.
  unfold Limited._evict_lru, mbind, M_bind, get_state.
  destruct (_conns st) as [|first others]; [done|].
  destruct (dbs_usage st !! Limited.min_last_access first others) as [[]|];
    simpl; [done| |done].
  unfold pop_conn.
  destruct (dict_pop (Limited.min_last_access first others) (_conns st))
    as [[?|] ?]; done.
Qed.

(** An in-use victim makes [_evict_lru] return without any change. *)
Lemma evict_lru_in_use st first others :
  _conns st = first :: others →
  dbs_usage st !! Limited.min_last_access first others = Some true →
  Limited._evict_lru st = (Ok tt, st).
Proof.
  intros Hc Hu. unfold Limited._evict_lru, mbind, M_bind, get_state.
  by rewrite Hc, Hu.
Qed.

(** A loop whose condition holds and whose body changes nothing never
    ends. *)
Lemma while_stuck {A : Type} fuel (cond : state → bool) (body : A → M A)
    (a : A) st :
  cond st = true →
  (∀ a', body a' st = (Ok a', st)) →
  while fuel cond body a st = None.
Proof.
  intros Hc Hb. induction fuel as [|fuel IH]; simpl; rewrite Hc; [done|].
  by rewrite Hb.
Qed.

(** ** Scenarios *)

Lemma limited_get_connection_stuck fuel now_0 now_p now_d now_a k ttl st
    first others :
  all_live now_0 (_conns st) →
  _conns st = first :: others →
  max_conn st < Z.of_nat (length (_conns st)) →
  dbs_usage st !! Limited.min_last_access first others = Some true →
  Limited.get_connection fuel now_0 now_p now_d now_a k ttl st = None.
Proof.
  intros Hlive Hc Hfull Hused. unfold Limited.get_connection.
  rewrite prune_connections_live by done.
  destruct (Z.ltb_spec (Z.of_nat (length (_conns st))) (max_conn st));
    [lia|].
  rewrite while_stuck; [done| |].
  - by apply Z.ltb_lt.
  - intros []. by eapply evict_lru_in_use.
Qed.

(** At capacity the eviction loop is not entered: the limited pool acquires
    as the base pool does, and does not mark the key. *)
Lemma limited_get_connection_at_capacity fuel now_0 now_p now_d now_a k ttl
    st :
  all_live now_0 (_conns st) →
  Z.of_nat (length (_conns st)) = max_conn st →
  Limited.get_connection fuel now_0 now_p now_d now_a k ttl st
  = Some (Pool.get_connection now_p now_d now_a k ttl st).
Proof.
  intros Hlive Hlen. unfold Limited.get_connection.
  rewrite prune_connections_live by done.
  destruct (Z.ltb_spec (Z.of_nat (length (_conns st))) (max_conn st));
    [lia|].
  destruct fuel; simpl;
    by destruct (Z.ltb_spec (max_conn st) (Z.of_nat (length (_conns st))));
      [lia|].
Qed.

(** ** One entry per key *)

Lemma for_each_prune_NoDup now l st :
  NoDup (dict_keys (_conns st)) →
  NoDup (dict_keys (_conns (for_each l (prune_body now) st).2)).
Proof.
  revert st. induction l as [|[k e] l IH]; intros st Hnd;
    cbn [for_each]; [done|].
  unfold mbind, M_bind.
  destruct (Z.lt_ge_cases (deadline e) now).
  - rewrite prune_body_expired by done. simpl. by apply dict_pop_NoDup.
  - rewrite prune_body_live by lia. by apply IH.
Qed.

Lemma prune_connections_NoDup now st :
  NoDup (dict_keys (_conns st)) →
  NoDup (dict_keys (_conns (Pool.prune_connections now st).2)).
Proof. rewrite prune_connections_unfold. apply for_each_prune_NoDup. Qed.

(** Acquiring keeps the keys of the pool distinct, whatever its outcome. *)
Lemma get_connection_NoDup p d a k ttl st :
  NoDup (dict_keys (_conns st)) →
  NoDup (dict_keys (_conns (Pool.get_connection p d a k ttl st).2)).
Proof.
  intros Hnd. apply (prune_connections_NoDup p) in Hnd.
  unfold Pool.get_connection. run_method.
  destruct (Pool.prune_connections p st) as [[u|e] s]; simpl in *; [|done].
  apply (dict_pop_NoDup k) in Hnd as Hpop.
  assert (Hset : ∀ v, NoDup (dict_keys (dict_set k v (dict_pop k (_conns s)).2)))
    by (intros v; by apply dict_set_NoDup).
  destruct (deadline_of d ttl) as [dl|err];
  destruct (dict_pop k (_conns s)) as [[en|] rest]; simpl in *.
  all: repeat (case_match; simplify_eq/=); first [by apply Hset | done].
Qed.

(** ** Claims about the terminate path *)

(** C3: terminating the entry of a key removes the entry, closes its
    connection, counts the close as closed or closed-failed, and raises
    nothing.  In the code the entry of "a" is removed, but the call raises
    [ValueError] before the close: the connection stays open, [close] was
    never called and no counter moved. *)
Theorem C3_terminate_raises_before_close :
  let st := pool_with [("a", mkEntry 1%nat 1000000 0)] 0 ∅ in
  let r := Pool._terminate_connection_unsafe "a" st in
  r.1 = Raise ValueError
  ∧ _conns r.2 = []
  ∧ closed (heap r.2 1%nat) = false
  ∧ close_calls (heap r.2 1%nat) = 0%nat
  ∧ _stats r.2 = mkStats 0 0 0 0.
Proof. vm_compute. by repeat split. Qed.

(** C2: [close_all_connections] empties the dictionary and returns whether
    every close succeeded.  In the code, on a pool with the entries "a" and
    "b" whose connections close without error, the call raises [ValueError]:
    "a" is removed, "b" stays, and no connection is closed. *)
Theorem C2_close_all_raises_and_leaves_entries (fuel : nat) :
  let r := Pool.close_all_connections (S fuel) two_expired in
  outcome r = Some (Raise ValueError)
  ∧ (dict_keys ∘ _conns <$> state_after r) = Some ["b"]
  ∧ ((fun st => closed (heap st 1%nat)) <$> state_after r) = Some false
  ∧ ((fun st => closed (heap st 2%nat)) <$> state_after r) = Some false
  ∧ (_stats <$> state_after r) = Some (mkStats 0 0 0 0).
Proof.
  cbv zeta.
  rewrite (close_all_connections_raises fuel two_expired "a"
             (mkEntry 1%nat 10 0) [("b", mkEntry 2%nat 10 1)]) by done.
  vm_compute. by repeat split.
Qed.

(** C4: [prune_connections] removes every entry past its deadline, counts
    each in pruned, and closes each connection once.  In the code, with "a"
    and "b" both past their deadline, one call raises [ValueError] after
    removing "a" only: "b" stays, pruned is 1, and the connection of "a" was
    never closed. *)
Theorem C4_prune_stops_at_first_expired :
  let r := Pool.prune_connections 20 two_expired in
  r.1 = Raise ValueError
  ∧ dict_keys (_conns r.2) = ["b"]
  ∧ connection_pruned (_stats r.2) = 1
  ∧ connection_closed (_stats r.2) = 0
  ∧ closed (heap r.2 1%nat) = false
  ∧ close_calls (heap r.2 1%nat) = 0%nat.
Proof. vm_compute. by repeat split. Qed.

(** C8: a second [prune_connections] at the same time changes nothing.  In
    the code, with "a" and "b" both past their deadline, the first call
    removes "a" and the second call, at the same time, removes "b" and
    counts again. *)
Theorem C8_second_prune_changes_state :
  let st1 := (Pool.prune_connections 20 two_expired).2 in
  let st2 := (Pool.prune_connections 20 st1).2 in
  dict_keys (_conns st1) = ["b"]
  ∧ connection_pruned (_stats st1) = 1
  ∧ dict_keys (_conns st2) = []
  ∧ connection_pruned (_stats st2) = 2
  ∧ st2 ≠ st1.
Proof.
  vm_compute. repeat split; try done.
Qed.

(** ** Claims about the limited pool *)

(** C1: a pool of capacity 2 that acquires "a", "b" and "c" evicts "a" and
    ends with "b" and "c".  In the code nothing is evicted and the pool ends
    with three entries, also when the in-use marks of "a" and "b" are
    cleared before "c" is acquired. *)
Theorem C1_third_acquire_evicts_nothing (fuel : nat) :
  (dict_keys ∘ _conns <$> acquire_abc fuel) = Some ["a"; "b"; "c"]
  ∧ (dict_keys ∘ _conns <$> acquire_abc_unmarked fuel) = Some ["a"; "b"; "c"]
  ∧ (max_conn <$> acquire_abc fuel) = Some 2.
Proof. destruct fuel; vm_compute; by repeat split. Qed.

(** C5: when every entry is in use, acquiring a new key returns a
    connection.  In the code the state [contended] is reached through the
    public methods, all its entries are in use, and [get_connection] for the
    new key "c" never returns: no number of iterations ends the eviction
    loop. *)
Theorem C5_acquire_under_contention_never_returns (fuel : nat) :
  acquire_a_close_b_a (S fuel) = Some contended
  ∧ all_in_use contended
  ∧ dict_get "c" (_conns contended) = None
  ∧ Limited.get_connection fuel 3 3 3 3 "c" 1000 contended = None.
Proof.
  split; [by vm_compute|].
  split; [by repeat constructor|].
  split; [done|].
  eapply limited_get_connection_stuck; [|done|done|done].
  repeat constructor; simpl; lia.
Qed.

(** C6: an eviction removes the victim and closes its connection through
    the terminate path, so that closed or closed-failed counts it.  In the
    code the victim "a" leaves the dictionary and nothing else happens: its
    connection stays open, [close] was never called and no counter moved. *)
Theorem C6_evict_lru_does_not_close :
  let r := Limited._evict_lru one_idle in
  r.1 = Ok tt
  ∧ _conns r.2 = []
  ∧ closed (heap r.2 1%nat) = false
  ∧ close_calls (heap r.2 1%nat) = 0%nat
  ∧ _stats r.2 = mkStats 0 0 0 0.
Proof. vm_compute. by repeat split. Qed.

(** ** The base pool: acquiring *)

(** A successful acquire leaves the key at the end of the dictionary, with
    the connection it returned, the new deadline and the time of access. *)
Lemma get_connection_ok_conns p d a k ttl st c st1 :
  Pool.get_connection p d a k ttl st = (Ok c, st1) →
  _conns st1
  = dict_set k (mkEntry c (d + 1000 * ttl) a) (dict_pop k (_conns st)).2.
Proof.
  unfold Pool.get_connection. run_method.
  destruct (Pool.prune_connections p st) as [[u|e] st'] eqn:Hp; [|done].
  apply prune_connections_ok_inv in Hp as [_ ->].
  destruct (deadline_of_cases d ttl) as [-> | ->]; intros H;
    repeat (case_match; simplify_eq/=); try done.
Qed.

(** Acquiring a key whose stored connection is open, when the prune pass has
    nothing to remove, the connection is ready or can be rolled back, and
    the new deadline exists: the stored connection is returned and no
    counter moves. *)
Lemma get_connection_reuse p d a k ttl st e :
  all_live p (_conns st) →
  dict_get k (_conns st) = Some e →
  closed (heap st (connection e)) = false →
  status (heap st (connection e)) = STATUS_READY
    ∨ rollback_error (heap st (connection e)) = None →
  deadline_representable d ttl →
  ∃ st2,
    Pool.get_connection p d a k ttl st = (Ok (connection e), st2)
    ∧ _stats st2 = _stats st
    ∧ _conns st2
      = dict_set k (mkEntry (connection e) (d + 1000 * ttl) a)
                 (dict_pop k (_conns st)).2.
Proof.
  intros Hlive Hget Hopen Hready Hdl.
  apply deadline_of_representable in Hdl.
  unfold Pool.get_connection. run_method.
  rewrite prune_connections_live by done.
  pose proof (dict_get_pop_fst k (_conns st)) as Hpop.
  destruct (dict_pop k (_conns st)) as [r rest]; simpl in Hpop.
  rewrite Hpop, Hget, Hdl. simpl. rewrite Hopen. simpl.
  destruct (status (heap st (connection e)) =? STATUS_READY) eqn:Hs; simpl.
  - eexists. split; [reflexivity|]. done.
  - destruct Hready as [Hr|Hr]; [apply Z.eqb_neq in Hs; done|].
    unfold conn_rollback. rewrite Hr. simpl.
    eexists. split; [reflexivity|]. done.
Qed.

(** C7, as the code has it: a key whose stored connection is still open is
    acquired a second time while no entry of the pool, the key's own
    included, is past its deadline at the reading [p2] of the clock; the
    connection is ready or its rollback succeeds, and the new deadline
    exists.  The second acquire returns the connection object of the first
    and does not count an opened connection; the entry holds after each
    acquire the clock reading that the acquire took for the time of access,
    [a1] and then [a2], and the deadline of that acquire.  [h] is the state
    of the connection objects at the second acquire. *)
Theorem C7_second_acquire_returns_stored_connection
    (st0 st1 : state) (k : string) (c : conn) (h : Heap)
    (p1 d1 a1 ttl1 p2 d2 a2 ttl2 : Z) :
  Pool.get_connection p1 d1 a1 k ttl1 st0 = (Ok c, st1) →
  closed (h c) = false →
  status (h c) = STATUS_READY ∨ rollback_error (h c) = None →
  all_live p2 (_conns st1) →
  deadline_representable d2 ttl2 →
  ∃ st2,
    Pool.get_connection p2 d2 a2 k ttl2 (set_heap h st1) = (Ok c, st2)
    ∧ connection_opened (_stats st2) = connection_opened (_stats st1)
    ∧ dict_get k (_conns st1) = Some (mkEntry c (d1 + 1000 * ttl1) a1)
    ∧ dict_get k (_conns st2) = Some (mkEntry c (d2 + 1000 * ttl2) a2).
Proof.
  intros Hfirst Hopen Hready Hlive Hdl.
  apply get_connection_ok_conns in Hfirst as Hc1.
  set (e1 := mkEntry c (d1 + 1000 * ttl1) a1) in *.
  assert (Hget : dict_get k (_conns (set_heap h st1)) = Some e1).
  { simpl. rewrite Hc1. apply dict_get_set_eq. }
  destruct (get_connection_reuse p2 d2 a2 k ttl2 (set_heap h st1) e1)
    as (st2 & Hsecond & Hstats & Hc2); try done.
  exists st2.
  split; [done|]. split; [by rewrite Hstats|].
  split; [by rewrite <- Hget|].
  rewrite Hc2. apply dict_get_set_eq.
Qed.

Lemma C7_second_acquire_returns_stored_connection_witness :
  Pool.get_connection 0 0 0 "a" 1000 (pool_with [] 0 ∅)
    = (Ok 1%nat, after_first_a)
  ∧ all_live 500000 (_conns after_first_a)
  ∧ ∃ st2,
      Pool.get_connection 500000 500000 500000 "a" 1000
        (set_heap heap0 after_first_a) = (Ok 1%nat, st2)
      ∧ connection_opened (_stats st2)
        = connection_opened (_stats after_first_a)
      ∧ dict_get "a" (_conns after_first_a)
        = Some (mkEntry 1%nat (0 + 1000 * 1000) 0)
      ∧ dict_get "a" (_conns st2)
        = Some (mkEntry 1%nat (500000 + 1000 * 1000) 500000).
Proof.
  split; [reflexivity|].
  split; [repeat constructor; simpl; lia|].
  apply (C7_second_acquire_returns_stored_connection
           (pool_with [] 0 ∅) after_first_a "a" 1%nat heap0
           0 0 0 1000 500000 500000 500000 1000).
  - reflexivity.
  - reflexivity.
  - left. reflexivity.
  - repeat constructor; simpl; lia.
  - unfold deadline_representable, TIMEDELTA_MAX_DAYS, DATETIME_DAYS,
      MICROSECONDS_PER_DAY. lia.
Defined.

(** C7 as it is worded does not hold of the code.  In each case the key "a"
    is stored with an open connection and the clock has not passed its
    deadline.  (1) The clock reads 10 at both acquires: the same connection
    is returned, but the time of last access is 10 as before, not later.
    (2) Another key, "b", is past its deadline at time 2000: the acquire
    raises [ValueError].  (3) The stored connection is in a failed
    transaction and its rollback raises: the acquire raises that exception.
    (4) The TTL is 10^18 milliseconds: the acquire raises
    [OverflowError]. *)
Lemma C7_second_acquire_counterexample :
  (closed (heap after_b_then_a 1%nat) = false
   ∧ (Pool.get_connection 10 10 10 "a" 1000 after_b_then_a).1 = Ok 1%nat
   ∧ ∃ e1 e2,
       dict_get "a" (_conns after_b_then_a) = Some e1
       ∧ dict_get "a"
           (_conns (Pool.get_connection 10 10 10 "a" 1000 after_b_then_a).2)
         = Some e2
       ∧ ¬ (last_access e1 < last_access e2))
  ∧ (2000 <= 1000010
     ∧ (Pool.get_connection 2000 2000 2000 "a" 1000 after_b_then_a).1
       = Raise ValueError)
  ∧ (dict_get "a" (_conns broken_pool) = Some (mkEntry 1%nat 1000000 0)
     ∧ closed (heap broken_pool 1%nat) = false
     ∧ (Pool.get_connection 5 5 5 "a" 1000 broken_pool).1
       = Raise (DriverError 9))
  ∧ (Pool.get_connection 10 10 10 "a" (10 ^ 18) after_b_then_a).1
    = Raise OverflowError.
Proof.
  split; [|by vm_compute].
  split; [reflexivity|]. split; [reflexivity|].
  exists (mkEntry 1%nat 1000010 10), (mkEntry 1%nat 1000010 10).
  split; [reflexivity|]. split; [reflexivity|]. simpl. lia.
Qed.

(** C10: an acquire whose prune pass completes, which finds no usable
    stored connection for the key (none, or a closed one) and whose factory
    raises, raises the factory's exception; the opened counter is one more
    than before the call and no entry is stored for the key.  A dictionary
    has no repeated key. *)
Theorem C10_factory_failure_is_not_rolled_back
    (st st_p : state) (k : string) (p d a ttl : Z) (e : exn) (h' : Heap) :
  NoDup (dict_keys (_conns st)) →
  Pool.prune_connections p st = (Ok tt, st_p) →
  match dict_get k (_conns st_p) with
  | None => True
  | Some en => closed (heap st_p (connection en)) = true
  end →
  call (connect_fn st_p) k (heap st_p) = (Raise e, h') →
  ∃ st',
    Pool.get_connection p d a k ttl st = (Raise e, st')
    ∧ connection_opened (_stats st') = connection_opened (_stats st) + 1
    ∧ dict_get k (_conns st') = None
    ∧ _conns st' = (dict_pop k (_conns st)).2.
Proof.
  intros Hnd Hp Hstored Hcall.
  apply prune_connections_ok_inv in Hp as Hinv. destruct Hinv as [_ ->].
  unfold Pool.get_connection. run_method. rewrite Hp.
  pose proof (dict_get_pop_fst k (_conns st)) as Hpop.
  pose proof (dict_get_pop_None k (_conns st) Hnd) as Hgone.
  destruct (dict_pop k (_conns st)) as [r rest]; simpl in Hpop, Hgone.
  subst r.
  destruct (dict_get k (_conns st)) as [en|]; simpl.
  - rewrite Hstored. simpl. rewrite Hcall. by eexists.
  - rewrite Hcall. by eexists.
Qed.

Lemma C10_factory_failure_is_not_rolled_back_witness :
  ∃ st',
    Pool.get_connection 5 5 5 "a" 1000 stale_pool = (Raise (DriverError 7), st')
    ∧ connection_opened (_stats st')
      = connection_opened (_stats stale_pool) + 1
    ∧ dict_get "a" (_conns st') = None
    ∧ _conns st' = (dict_pop "a" (_conns stale_pool)).2.
Proof.
  apply (C10_factory_failure_is_not_rolled_back
           stale_pool stale_pool "a" 5 5 5 1000 (DriverError 7)
           (heap stale_pool)).
  - repeat constructor. simpl. intros H. inversion H.
  - reflexivity.
  - reflexivity.
  - reflexivity.
Defined.

(** ** Construction *)

Lemma prune_body_with_parameters n now item st :
  prune_body now item (with_parameters n st)
  = prod_map id (with_parameters n) (prune_body now item st).
Proof.
  destruct item as [k e].
  destruct (Z.lt_ge_cases (deadline e) now).
  - by rewrite !prune_body_expired.
  - by rewrite !prune_body_live by lia.
Qed.

Lemma prune_connections_with_parameters n now st :
  Pool.prune_connections now (with_parameters n st)
  = prod_map id (with_parameters n) (Pool.prune_connections now st).
Proof.
  rewrite !prune_connections_unfold.
  change (_conns (with_parameters n st)) with (_conns st).
  generalize (_conns st) as l. intros l. revert st.
  induction l as [|item l IH]; intros st; cbn [for_each]; [done|].
  unfold mbind, M_bind. rewrite prune_body_with_parameters.
  destruct (prune_body now item st) as [[u|e] s]; simpl; [apply IH|done].
Qed.

Lemma get_connection_with_parameters n p d a k ttl st :
  Pool.get_connection p d a k ttl (with_parameters n st)
  = prod_map id (with_parameters n) (Pool.get_connection p d a k ttl st).
Proof.
  unfold Pool.get_connection. run_method.
  rewrite prune_connections_with_parameters.
  destruct (Pool.prune_connections p st) as [[u|e] s]; simpl; [|done].
  destruct (deadline_of d ttl) as [dl|err];
  destruct (dict_pop k (_conns s)) as [[en|] rest]; simpl.
  all: repeat (case_match; simplify_eq/=); done.
Qed.

(** C9: constructing a pool raises when the factory does not take exactly
    one parameter and succeeds when it takes one; acquiring never looks at
    the signature again: the parameter count recorded for the factory
    changes neither the outcome of [get_connection] nor the state it
    leaves. *)
Theorem C9_signature_checked_at_construction_only
    (f : Factory) (h : Heap) (n : nat) (st : state) (p d a : Z) (k : string)
    (ttl : Z) :
  (parameters f ≠ 1%nat → Pool.__init__ true f h = Raise ValueError)
  ∧ (parameters f = 1%nat →
     Pool.__init__ true f h = Ok (mkState (mkStats 0 0 0 0) [] f false 0 ∅ h))
  ∧ Pool.get_connection p d a k ttl (with_parameters n st)
    = prod_map id (with_parameters n) (Pool.get_connection p d a k ttl st).
Proof.
  split; [|split].
  - intros Hn. unfold Pool.__init__.
    by destruct (Nat.eqb_spec (parameters f) 1).
  - intros Hn. unfold Pool.__init__. by rewrite Hn.
  - apply get_connection_with_parameters.
Qed.

Lemma C9_signature_checked_at_construction_only_witness :
  Pool.__init__ true two_parameter_factory heap0 = Raise ValueError
  ∧ Pool.__init__ true example_factory heap0
    = Ok (mkState (mkStats 0 0 0 0) [] example_factory false 0 ∅ heap0).
Proof.
  split.
  - apply (C9_signature_checked_at_construction_only
             two_parameter_factory heap0 0%nat (pool_with [] 0 ∅) 0 0 0 "a" 0).
    simpl. lia.
  - apply (C9_signature_checked_at_construction_only
             example_factory heap0 0%nat (pool_with [] 0 ∅) 0 0 0 "a" 0).
    reflexivity.
Defined.

(** ** More on dictionaries *)
Section DictMore.
Context {V : Type}.
Implicit Types (d : dict V) (k : string) (v : V).

Lemma dict_get_pop_ne k k' d :
  k' ≠ k → dict_get k' (dict_pop k d).2 = dict_get k' d.
Proof.
  intros Hne. induction d as [|[k0 v0] d IH]; simpl; [done|].
  destruct (String.eqb_spec k0 k) as [->|Hk]; simpl.
  - by destruct (String.eqb_spec k k') as [->|?].
  - destruct (dict_pop k d) as [r d'']; simpl in *. by rewrite IH.
Qed.

Lemma dict_get_set_ne k k' v d :
  k' ≠ k → dict_get k' (dict_set k v d) = dict_get k' d.
Proof.
  intros Hne. induction d as [|[k0 v0] d IH]; simpl.
  - by destruct (String.eqb_spec k k') as [->|?].
  - destruct (String.eqb_spec k0 k) as [->|Hk]; simpl.
    + by destruct (String.eqb_spec k k') as [->|?].
    + by rewrite IH.
Qed.

Lemma dict_pop_absent k d : dict_get k d = None → dict_pop k d = (None, d).
Proof.
  induction d as [|[k0 v0] d IH]; simpl; [done|].
  destruct (String.eqb k0 k); [done|]. intros H. by rewrite IH.
Qed.

Lemma dict_set_absent k v d :
  dict_get k d = None → dict_set k v d = (d ++ [(k, v)])%list.
Proof.
  induction d as [|[k0 v0] d IH]; simpl; [done|].
  destruct (String.eqb k0 k); [done|]. intros H. by rewrite IH.
Qed.

Lemma dict_pop_length k d :
  is_Some (dict_get k d) → S (length (dict_pop k d).2) = length d.
Proof.
  induction d as [|[k0 v0] d IH]; simpl; [by intros [? ?]|].
  destruct (String.eqb k0 k); [done|]. intros H.
  destruct (dict_pop k d) as [r d'']; simpl in *. by rewrite IH.
Qed.

Lemma dict_pop_length_le k d :
  (length (dict_pop k d).2 ≤ length d)%nat.
Proof.
  induction d as [|[k0 v0] d IH]; simpl; [lia|].
  destruct (String.eqb k0 k); simpl; [lia|].
  destruct (dict_pop k d) as [r d'']; simpl in *. lia.
Qed.

Lemma dict_set_length_le k v d :
  (length (dict_set k v d) ≤ S (length d))%nat.
Proof.
  induction d as [|[k0 v0] d IH]; simpl; [lia|].
  destruct (String.eqb k0 k); simpl; lia.
Qed.

Lemma dict_get_Some_keys k v d : dict_get k d = Some v → k ∈ dict_keys d.
Proof.
  induction d as [|[k0 v0] d IH]; simpl; [done|].
  destruct (String.eqb_spec k0 k) as [->|Hk]; [set_solver|].
  intros H. apply IH in H. set_solver.
Qed.

Lemma dict_keys_get_Some k d : k ∈ dict_keys d → is_Some (dict_get k d).
Proof.
  induction d as [|[k0 v0] d IH]; simpl; [set_solver|].
  destruct (String.eqb_spec k0 k) as [->|Hk]; [by eexists|].
  intros H. apply IH. set_solver.
Qed.

(** In a dictionary without repeated keys an item is what [get] finds. *)
Lemma dict_get_elem_of k v d :
  NoDup (dict_keys d) → (k, v) ∈ d → dict_get k d = Some v.
Proof.
  induction d as [|[k0 v0] d IH]; simpl; [set_solver|].
  intros [Hk0 Hd]%NoDup_cons Hin.
  apply elem_of_cons in Hin as [[= <- <-]|Hin].
  - by rewrite String.eqb_refl.
  - destruct (String.eqb_spec k0 k) as [->|Hk]; [|by apply IH].
    exfalso. apply Hk0. unfold dict_keys.
    apply list_elem_of_fmap. by exists (k, v).
Qed.
End DictMore.
(** ** The prune pass in general *)

(** A pass over [l] either finds nothing past its deadline and changes
    nothing, or stops at one expired entry: it counts it, pops its key and
    raises the [ValueError] of the terminate path. *)
Lemma for_each_prune_outcome now l st :
  (all_live now l ∧ for_each l (prune_body now) st = (Ok tt, st))
  ∨ (∃ k e, (k, e) ∈ l ∧ deadline e < now
      ∧ for_each l (prune_body now) st
        = (Raise ValueError,
           set_conns (dict_pop k (_conns st)).2 (count_pruned st))).
Proof.
  induction l as [|[k e] l IH]; cbn [for_each].
  - left. split; [constructor | done].
  - unfold mbind, M_bind.
    destruct (Z.lt_ge_cases (deadline e) now) as [Hexp|Hlive].
    + right. exists k, e. split; [set_solver|]. split; [done|].
      by rewrite prune_body_expired.
    + rewrite prune_body_live by lia.
      destruct IH as [[Hl Heq]|(k' & e' & Hin & Hexp & Heq)].
      * left. split; [constructor; [simpl; lia | done] | done].
      * right. exists k', e'. split; [set_solver | done].
Qed.

Lemma prune_connections_outcome now st :
  (all_live now (_conns st) ∧ Pool.prune_connections now st = (Ok tt, st))
  ∨ (∃ k e, (k, e) ∈ _conns st ∧ deadline e < now
      ∧ Pool.prune_connections now st
        = (Raise ValueError,
           set_conns (dict_pop k (_conns st)).2 (count_pruned st))).
Proof. rewrite prune_connections_unfold. apply for_each_prune_outcome. Qed.

Lemma all_live_not_expired now d : all_live now d → ¬ some_expired now d.
Proof.
  unfold all_live, some_expired. rewrite Forall_forall, Exists_exists.
  intros Hl (ke & Hin & Hexp). specialize (Hl ke Hin). lia.
Qed.

(** [prune_connections] returns normally exactly when no entry is past its
    deadline, and a pass that returns normally has changed nothing. *)
Theorem prune_connections_ok_iff_all_live (now : Z) (st : state) :
  ((Pool.prune_connections now st).1 = Ok tt ↔ all_live now (_conns st))
  ∧ ((Pool.prune_connections now st).1 = Ok tt →
     (Pool.prune_connections now st).2 = st).
Proof.
  split; [split|].
  - intros H.
    destruct (Pool.prune_connections now st) as [r s] eqn:Hp.
    simpl in H. subst r. by apply prune_connections_ok_inv in Hp as [? _].
  - intros H. by rewrite prune_connections_live.
  - intros H.
    destruct (Pool.prune_connections now st) as [r s] eqn:Hp.
    simpl in H. subst r. by apply prune_connections_ok_inv in Hp as [_ ?].
Qed.

Lemma prune_connections_ok_iff_all_live_witness :
  (Pool.prune_connections 5 after_first_a).1 = Ok tt
  ∧ (Pool.prune_connections 5 after_first_a).2 = after_first_a.
Proof.
  assert (H : (Pool.prune_connections 5 after_first_a).1 = Ok tt).
  { apply (proj2 (proj1 (prune_connections_ok_iff_all_live 5 after_first_a))).
    repeat constructor; simpl; lia. }
  split; [exact H|].
  exact (proj2 (prune_connections_ok_iff_all_live 5 after_first_a) H).
Defined.

(** Whatever its outcome, [prune_connections] closes nothing and opens
    nothing: the connection objects and the opened, closed and closed-failed
    counters are as before; it counts at most one pruned entry and removes
    at most one entry. *)
Theorem prune_connections_never_closes (now : Z) (st : state) :
  let st' := (Pool.prune_connections now st).2 in
  heap st' = heap st
  ∧ connection_opened (_stats st') = connection_opened (_stats st)
  ∧ connection_closed (_stats st') = connection_closed (_stats st)
  ∧ connection_closed_failed (_stats st')
    = connection_closed_failed (_stats st)
  ∧ connection_pruned (_stats st) <= connection_pruned (_stats st')
      <= connection_pruned (_stats st) + 1
  ∧ (length (_conns st) ≤ S (length (_conns st')))%nat.
Proof.
  destruct (prune_connections_outcome now st)
    as [[_ ->]|(k & e & Hin & _ & ->)]; simpl.
  - repeat split; lia.
  - assert (Hk : is_Some (dict_get k (_conns st))).
    { apply dict_keys_get_Some. unfold dict_keys.
      apply list_elem_of_fmap. by exists (k, e). }
    apply (dict_pop_length k) in Hk.
    repeat split; lia.
Qed.

Lemma prune_connections_live_entry
    (now : Z) (st : state) (k : string) (e : ConnectionWithTTLAndLastAccess) :
  NoDup (dict_keys (_conns st)) →
  dict_get k (_conns st) = Some e →
  now <= deadline e →
  dict_get k (_conns (Pool.prune_connections now st).2) = Some e.
Proof.
  intros Hnd Hget Hlive.
  destruct (prune_connections_outcome now st)
    as [[_ ->]|(k' & e' & Hin & Hexp & ->)]; simpl; [done|].
  rewrite dict_get_pop_ne; [done|].
  intros ->. apply (dict_get_elem_of _ _ _ Hnd) in Hin.
  rewrite Hget in Hin. simplify_eq. lia.
Qed.

(** An entry that is not past its deadline survives [prune_connections],
    whatever the outcome of the pass. *)
Theorem prune_connections_keeps_live_entries
    (now : Z) (st : state) (k : string) (e : ConnectionWithTTLAndLastAccess) :
  NoDup (dict_keys (_conns st)) →
  dict_get k (_conns st) = Some e →
  now <= deadline e →
  dict_get k (_conns (Pool.prune_connections now st).2) = Some e.
Proof. apply prune_connections_live_entry. Qed.

Lemma prune_connections_keeps_live_entries_witness :
  dict_get "b"
    (_conns (Pool.prune_connections 20
       (pool_with [("a", mkEntry 1%nat 10 0); ("b", mkEntry 2%nat 30 1)]
                  0 ∅)).2)
  = Some (mkEntry 2%nat 30 1).
Proof.
  apply (prune_connections_keeps_live_entries 20
           (pool_with [("a", mkEntry 1%nat 10 0); ("b", mkEntry 2%nat 30 1)]
                      0 ∅) "b" (mkEntry 2%nat 30 1)).
  - repeat constructor; set_solver.
  - reflexivity.
  - simpl. lia.
Defined.
(** ** Acquiring in general *)

Lemma heap_set_same c o h : heap_set c o h c = o.
Proof. unfold heap_set. by rewrite Nat.eqb_refl. Qed.

(** When the prune pass raises, so does the acquire, and nothing else has
    happened. *)
Lemma get_connection_prune_raises p d a k ttl st e s :
  Pool.prune_connections p st = (Raise e, s) →
  Pool.get_connection p d a k ttl st = (Raise e, s).
Proof.
  intros Hp. unfold Pool.get_connection. run_method. by rewrite Hp.
Qed.

(** What an acquire can do once its prune pass has completed. *)
Lemma get_connection_shape p d a k ttl st :
  all_live p (_conns st) →
  let r := Pool.get_connection p d a k ttl st in
  ((∃ e, r.1 = Raise e ∧ _conns r.2 = (dict_pop k (_conns st)).2)
   ∨ (∃ c, r.1 = Ok c
        ∧ _conns r.2
          = dict_set k (mkEntry c (d + 1000 * ttl) a)
                     (dict_pop k (_conns st)).2
        ∧ status (heap r.2 c) = STATUS_READY))
  ∧ (_stats r.2 = _stats st ∨ _stats r.2 = _stats (count_opened st))
  ∧ dbs_usage r.2 = dbs_usage st
  ∧ max_conn r.2 = max_conn st
  ∧ connect_fn r.2 = connect_fn st.
Proof.
  intros Hlive. cbv zeta.
  unfold Pool.get_connection. run_method.
  rewrite prune_connections_live by done.
  destruct (deadline_of_cases d ttl) as [-> | ->];
  destruct (dict_pop k (_conns st)) as [[en|] rest]; simpl.
  all: repeat match goal with
       | |- context [closed ?o] => destruct (closed o); simpl
       | |- context [call ?f ?x ?hh] =>
           destruct (call f x hh) as [[c|err] h]; simpl
       | |- context [?x =? STATUS_READY] =>
           let Hs := fresh "Hs" in
           destruct (x =? STATUS_READY) eqn:Hs; simpl;
           [apply Z.eqb_eq in Hs|]
       | |- context [conn_rollback ?cc ?hh] =>
           unfold conn_rollback;
           destruct (rollback_error (hh cc)); simpl
       end.
  all: split; [|by eauto 10].
  all: try (left; by eauto).
  all: right; eexists; split; [done|]; split; [done|]; simpl;
    first [done | unfold heap_set; by rewrite Nat.eqb_refl].
Qed.
(** When the prune pass completes and the key has no stored connection, or
    a closed one, [get_connection] calls the factory; if the factory returns
    a ready connection and the deadline [now + ttl_ms] exists, that
    connection is returned, one opened connection is counted and nothing
    else is, and the key's entry, with the new deadline and time of access,
    replaces whatever was stored for it. *)
Theorem get_connection_opens_when_none_usable
    (st : state) (k : string) (p d a ttl : Z) (c : conn) (h' : Heap) :
  all_live p (_conns st) →
  match dict_get k (_conns st) with
  | None => True
  | Some en => closed (heap st (connection en)) = true
  end →
  call (connect_fn st) k (heap st) = (Ok c, h') →
  status (h' c) = STATUS_READY →
  deadline_representable d ttl →
  Pool.get_connection p d a k ttl st
  = (Ok c,
     set_conns (dict_set k (mkEntry c (d + 1000 * ttl) a)
                         (dict_pop k (_conns st)).2)
       (set_heap h' (count_opened st))).
Proof.
  intros Hlive Hstored Hcall Hready Hdl.
  apply deadline_of_representable in Hdl.
  unfold Pool.get_connection. run_method.
  rewrite prune_connections_live by done.
  pose proof (dict_get_pop_fst k (_conns st)) as Hpop.
  destruct (dict_pop k (_conns st)) as [r rest]; simpl in Hpop. subst r.
  rewrite Hdl.
  destruct (dict_get k (_conns st)) as [en|]; simpl.
  - rewrite Hstored. simpl. rewrite Hcall. simpl.
    by rewrite Hready.
  - rewrite Hcall. simpl. by rewrite Hready.
Qed.

Lemma get_connection_opens_when_none_usable_witness :
  Pool.get_connection 5 6 7 "b" 1000 after_first_a
  = (Ok 2%nat,
     set_conns (dict_set "b" (mkEntry 2%nat (6 + 1000 * 1000) 7)
                         (dict_pop "b" (_conns after_first_a)).2)
       (set_heap heap0 (count_opened after_first_a))).
Proof.
  apply (get_connection_opens_when_none_usable
           after_first_a "b" 5 6 7 1000 2%nat heap0).
  - repeat constructor; simpl; lia.
  - exact I.
  - reflexivity.
  - reflexivity.
  - unfold deadline_representable, TIMEDELTA_MAX_DAYS, DATETIME_DAYS,
      MICROSECONDS_PER_DAY. lia.
Defined.

Lemma get_connection_ok_stored
    (st st' : state) (k : string) (p d a ttl : Z) (c : conn) :
  Pool.get_connection p d a k ttl st = (Ok c, st') →
  dict_get k (_conns st') = Some (mkEntry c (d + 1000 * ttl) a)
  ∧ status (heap st' c) = STATUS_READY.
Proof.
  intros H.
  assert (Hlive : all_live p (_conns st)).
  { destruct (Pool.prune_connections p st) as [[[]|e] s] eqn:Hp.
    - by apply prune_connections_ok_inv in Hp as [? _].
    - by rewrite (get_connection_prune_raises _ _ _ _ _ _ _ _ Hp) in H. }
  destruct (get_connection_shape p d a k ttl st Hlive)
    as ([(e & He & _)|(c' & Hc & Hconns & Hs)] & _); rewrite H in *;
    simpl in *; simplify_eq.
  split; [|done]. rewrite Hconns. apply dict_get_set_eq.
Qed.

(** After every acquire that returns, the entry stored for the key holds
    the returned connection, the deadline [now + ttl] (in microseconds) and
    the time of access; and the returned connection is ready. *)
Theorem get_connection_stores_what_it_returns
    (st st' : state) (k : string) (p d a ttl : Z) (c : conn) :
  Pool.get_connection p d a k ttl st = (Ok c, st') →
  dict_get k (_conns st') = Some (mkEntry c (d + 1000 * ttl) a)
  ∧ status (heap st' c) = STATUS_READY.
Proof. apply get_connection_ok_stored. Qed.

Lemma get_connection_stores_what_it_returns_witness :
  dict_get "a" (_conns after_first_a) = Some (mkEntry 1%nat (0 + 1000 * 1000) 0)
  ∧ status (heap after_first_a 1%nat) = STATUS_READY.
Proof.
  apply (get_connection_stores_what_it_returns
           (pool_with [] 0 ∅) after_first_a "a" 0 0 0 1000 1%nat).
  reflexivity.
Defined.

(** An acquire whose prune pass has nothing to remove touches the entry of
    its own key only: whatever its outcome, every other key keeps its
    entry. *)
Theorem get_connection_leaves_other_keys
    (st : state) (k k' : string) (p d a ttl : Z) :
  all_live p (_conns st) →
  k' ≠ k →
  dict_get k' (_conns (Pool.get_connection p d a k ttl st).2)
  = dict_get k' (_conns st).
Proof.
  intros Hlive Hne.
  destruct (get_connection_shape p d a k ttl st Hlive)
    as ([(e & _ & ->)|(c & _ & -> & _)] & _).
  - by apply dict_get_pop_ne.
  - rewrite dict_get_set_ne by done. by apply dict_get_pop_ne.
Qed.

Lemma get_connection_leaves_other_keys_witness :
  dict_get "a" (_conns (Pool.get_connection 5 6 7 "b" 1000 after_first_a).2)
  = dict_get "a" (_conns after_first_a).
Proof.
  apply (get_connection_leaves_other_keys after_first_a "b" "a" 5 6 7 1000).
  - repeat constructor; simpl; lia.
  - discriminate.
Defined.

(** A stored connection that is open but not ready is rolled back before it
    is handed out.  When the rollback raises, the exception reaches the
    caller and the pool has already forgotten the entry: the key is gone
    from the dictionary while its connection is still open and was never
    closed, and no counter has moved. *)
Theorem get_connection_rollback_failure_drops_entry
    (st : state) (k : string) (p d a ttl : Z)
    (en : ConnectionWithTTLAndLastAccess) (err : exn) :
  NoDup (dict_keys (_conns st)) →
  all_live p (_conns st) →
  dict_get k (_conns st) = Some en →
  closed (heap st (connection en)) = false →
  status (heap st (connection en)) ≠ STATUS_READY →
  rollback_error (heap st (connection en)) = Some err →
  Pool.get_connection p d a k ttl st
    = (Raise err, set_conns (dict_pop k (_conns st)).2 st)
  ∧ dict_get k (dict_pop k (_conns st)).2 = None.
Proof.
  intros Hnd Hlive Hget Hopen Hstatus Hrb.
  split; [|by apply dict_get_pop_None].
  unfold Pool.get_connection. run_method.
  rewrite prune_connections_live by done.
  pose proof (dict_get_pop_fst k (_conns st)) as Hpop.
  destruct (dict_pop k (_conns st)) as [r rest]; simpl in Hpop. subst r.
  rewrite Hget. simpl. rewrite Hopen. simpl.
  destruct (Z.eqb_spec (status (heap st (connection en))) STATUS_READY);
    [done|]. simpl.
  unfold conn_rollback. rewrite Hrb. by destruct st.
Qed.

Lemma get_connection_rollback_failure_drops_entry_witness :
  Pool.get_connection 5 6 7 "a" 1000 broken_pool
    = (Raise (DriverError 9),
       set_conns (dict_pop "a" (_conns broken_pool)).2 broken_pool)
  ∧ dict_get "a" (dict_pop "a" (_conns broken_pool)).2 = None.
Proof.
  apply (get_connection_rollback_failure_drops_entry
           broken_pool "a" 5 6 7 1000 (mkEntry 1%nat 1000000 0)
           (DriverError 9)).
  - repeat constructor. simpl. intros H. inversion H.
  - repeat constructor; simpl; lia.
  - reflexivity.
  - reflexivity.
  - discriminate.
  - reflexivity.
Defined.

(** [get_connection] never closes a connection and never counts one as
    closed: whatever its outcome, the closed and closed-failed counters are
    as before, and the opened and pruned counters grow by at most one. *)
Theorem get_connection_counts_at_most_one
    (st : state) (k : string) (p d a ttl : Z) :
  let st' := (Pool.get_connection p d a k ttl st).2 in
  connection_closed (_stats st') = connection_closed (_stats st)
  ∧ connection_closed_failed (_stats st')
    = connection_closed_failed (_stats st)
  ∧ connection_opened (_stats st) <= connection_opened (_stats st')
      <= connection_opened (_stats st) + 1
  ∧ connection_pruned (_stats st) <= connection_pruned (_stats st')
      <= connection_pruned (_stats st) + 1.
Proof.
  cbv zeta.
  destruct (prune_connections_outcome p st)
    as [[Hlive _]|(k' & e' & _ & _ & Hp)].
  - destruct (get_connection_shape p d a k ttl st Hlive)
      as (_ & [->| ->] & _); simpl; lia.
  - rewrite (get_connection_prune_raises _ _ _ _ _ _ _ _ Hp). simpl. lia.
Qed.

(** While some entry is past its deadline no connection can be acquired:
    [get_connection] raises [ValueError], for whatever key it is called. *)
Theorem get_connection_raises_while_some_expired
    (st : state) (k : string) (p d a ttl : Z) :
  some_expired p (_conns st) →
  (Pool.get_connection p d a k ttl st).1 = Raise ValueError.
Proof.
  intros Hexp.
  destruct (prune_connections_outcome p st)
    as [[Hlive _]|(k' & e' & _ & _ & Hp)].
  - by apply all_live_not_expired in Hlive.
  - by rewrite (get_connection_prune_raises _ _ _ _ _ _ _ _ Hp).
Qed.

Lemma get_connection_raises_while_some_expired_witness :
  (Pool.get_connection 2000000 2000000 2000000 "b" 1000 after_first_a).1
  = Raise ValueError.
Proof.
  apply (get_connection_raises_while_some_expired
           after_first_a "b" 2000000 2000000 2000000 1000).
  apply Exists_cons_hd. simpl. lia.
Defined.

(** The base pool keeps one entry per key: whatever the outcome of
    [get_connection], the keys of the pool are distinct if they were
    before. *)
Theorem get_connection_keeps_keys_distinct
    (st : state) (k : string) (p d a ttl : Z) :
  NoDup (dict_keys (_conns st)) →
  NoDup (dict_keys (_conns (Pool.get_connection p d a k ttl st).2)).
Proof. apply get_connection_NoDup. Qed.

Lemma get_connection_keeps_keys_distinct_witness :
  NoDup (dict_keys
           (_conns (Pool.get_connection 5 6 7 "b" 1000 after_first_a).2)).
Proof.
  apply (get_connection_keeps_keys_distinct after_first_a "b" 5 6 7 1000).
  repeat constructor. simpl. intros H. inversion H.
Defined.

(** ** The limited pool in general *)

(** [min] returns the key of an entry of the dictionary whose time of last
    access no other entry undercuts. *)
Lemma min_last_access_spec best (d : dict ConnectionWithTTLAndLastAccess) :
  ∃ x, x ∈ best :: d
       ∧ x.1 = Limited.min_last_access best d
       ∧ Forall (fun y => last_access x.2 <= last_access y.2) (best :: d).
Proof.
  revert best. induction d as [|y d IH]; intros best; simpl.
  - exists best. split; [set_solver|]. split; [done|].
    by repeat constructor.
  - destruct (Z.ltb_spec (last_access y.2) (last_access best.2)) as [Hlt|Hge].
    + destruct (IH y) as (x & Hin & Hk & Hall).
      exists x. split; [set_solver|]. split; [done|].
      apply Forall_cons in Hall as [Hxy Hall].
      constructor; [lia|]. by constructor.
    + destruct (IH best) as (x & Hin & Hk & Hall).
      exists x. split; [set_solver|]. split; [done|].
      apply Forall_cons in Hall as [Hxb Hall].
      constructor; [done|]. constructor; [lia | done].
Qed.

Lemma min_last_access_key first (others : dict ConnectionWithTTLAndLastAccess) :
  Limited.min_last_access first others ∈ dict_keys (first :: others).
Proof.
  destruct (min_last_access_spec first others) as (x & Hin & <- & _).
  unfold dict_keys. apply list_elem_of_fmap. by exists x.
Qed.

(** What [_evict_lru] does to a victim that is marked idle. *)
Lemma evict_lru_idle st first others :
  _conns st = first :: others →
  dbs_usage st !! Limited.min_last_access first others = Some false →
  Limited._evict_lru st
  = (Ok tt,
     set_conns (dict_pop (Limited.min_last_access first others)
                         (_conns st)).2 st).
Proof.
  intros Hc Hu. unfold Limited._evict_lru, mbind, M_bind, get_state.
  rewrite Hc, Hu. unfold mret, M_ret, pop_conn. cbv iota beta. rewrite Hc.
  pose proof (dict_get_pop_fst (Limited.min_last_access first others)
                (first :: others)) as Hpop.
  destruct (dict_keys_get_Some _ _ (min_last_access_key first others))
    as [e He].
  rewrite He in Hpop.
  destruct (dict_pop (Limited.min_last_access first others)
              (first :: others)) as [r rest].
  cbn [fst snd] in *. by subst r.
Qed.

(** When the least recently used entry is not marked in use, [_evict_lru]
    removes exactly that entry: its key is gone, every other key keeps its
    entry, and no entry of the pool had an earlier time of last access. *)
Theorem evict_lru_removes_least_recently_used
    (st : state) (first : string * ConnectionWithTTLAndLastAccess)
    (others : dict ConnectionWithTTLAndLastAccess) :
  _conns st = first :: others →
  NoDup (dict_keys (_conns st)) →
  dbs_usage st !! Limited.min_last_access first others = Some false →
  ∃ lru e,
    Limited._evict_lru st = (Ok tt, set_conns (dict_pop lru (_conns st)).2 st)
    ∧ dict_get lru (_conns st) = Some e
    ∧ Forall (fun y => last_access e <= last_access y.2) (_conns st)
    ∧ dict_get lru (dict_pop lru (_conns st)).2 = None
    ∧ ∀ k', k' ≠ lru →
        dict_get k' (dict_pop lru (_conns st)).2 = dict_get k' (_conns st).
Proof.
  intros Hc Hnd Hu.
  destruct (min_last_access_spec first others) as (x & Hin & Hk & Hall).
  exists (Limited.min_last_access first others), x.2.
  split; [by apply evict_lru_idle|].
  split.
  { apply dict_get_elem_of; [done|]. rewrite Hc, <- Hk. by destruct x. }
  split; [by rewrite Hc|].
  split; [by apply dict_get_pop_None|].
  intros k' Hne. by apply dict_get_pop_ne.
Qed.

Lemma evict_lru_removes_least_recently_used_witness :
  ∃ lru e,
    Limited._evict_lru two_idle
      = (Ok tt, set_conns (dict_pop lru (_conns two_idle)).2 two_idle)
    ∧ dict_get lru (_conns two_idle) = Some e
    ∧ Forall (fun y => last_access e <= last_access y.2) (_conns two_idle)
    ∧ dict_get lru (dict_pop lru (_conns two_idle)).2 = None
    ∧ ∀ k', k' ≠ lru →
        dict_get k' (dict_pop lru (_conns two_idle)).2
        = dict_get k' (_conns two_idle).
Proof.
  apply (evict_lru_removes_least_recently_used two_idle
           ("b", mkEntry 2%nat 1000000 5) [("a", mkEntry 1%nat 1000000 3)]).
  - reflexivity.
  - repeat constructor; simpl; set_solver.
  - reflexivity.
Defined.

(** A least recently used key that was never entered in [dbs_usage] makes
    [_evict_lru] raise [KeyError]; the pool is unchanged. *)
Theorem evict_lru_unmarked_key_raises
    (st : state) (first : string * ConnectionWithTTLAndLastAccess)
    (others : dict ConnectionWithTTLAndLastAccess) :
  _conns st = first :: others →
  dbs_usage st !! Limited.min_last_access first others = None →
  Limited._evict_lru st = (Raise KeyError, st).
Proof.
  intros Hc Hu. unfold Limited._evict_lru, mbind, M_bind, get_state.
  by rewrite Hc, Hu.
Qed.

Lemma evict_lru_unmarked_key_raises_witness :
  Limited._evict_lru after_first_a = (Raise KeyError, after_first_a).
Proof.
  apply (evict_lru_unmarked_key_raises after_first_a
           ("a", mkEntry 1%nat 1000000 0) []); reflexivity.
Defined.
(** A property that the body of a loop keeps, whatever its outcome, holds
    when the loop ends. *)
Lemma while_invariant {A : Type} (P : state → Prop) fuel
    (cond : state → bool) (body : A → M A) a st r st' :
  (∀ a s, P s → P (body a s).2) →
  P st →
  while fuel cond body a st = Some (r, st') →
  P st'.
Proof.
  intros Hbody. revert a st.
  induction fuel as [|fuel IH]; intros a st HP; simpl;
    destruct (cond st); try done; try (by intros [= _ <-]).
  specialize (Hbody a st HP).
  destruct (body a st) as [[a'|e] s]; simpl in *.
  - by apply IH.
  - by intros [= _ <-].
Qed.

(** Below capacity the limited pool acquires as the base pool does and, when
    that returns a connection, marks the key in use; the pool then holds at
    most [max_conn] entries. *)
Theorem limited_get_connection_below_capacity
    (fuel : nat) (st st' : state) (k : string) (now_0 p d a ttl : Z)
    (c : conn) :
  all_live now_0 (_conns st) →
  Z.of_nat (length (_conns st)) < max_conn st →
  Pool.get_connection p d a k ttl st = (Ok c, st') →
  Limited.get_connection fuel now_0 p d a k ttl st
    = Some (Ok c, set_dbs_usage (<[k := true]> (dbs_usage st')) st')
  ∧ Z.of_nat (length (_conns st')) <= max_conn st.
Proof.
  intros Hlive Hlen Hget. split.
  - unfold Limited.get_connection.
    rewrite prune_connections_live by done.
    destruct (Z.ltb_spec (Z.of_nat (length (_conns st))) (max_conn st));
      [|lia].
    unfold mbind, M_bind. by rewrite Hget.
  - apply get_connection_ok_conns in Hget. rewrite Hget.
    pose proof (dict_set_length_le k (mkEntry c (d + 1000 * ttl) a)
                  (dict_pop k (_conns st)).2).
    pose proof (dict_pop_length_le k (_conns st)). lia.
Qed.

Lemma limited_get_connection_below_capacity_witness :
  Limited.get_connection 0 0 0 0 0 "a" 1000 (pool_with [] 2 ∅)
    = Some (Ok 1%nat,
            set_dbs_usage
              (<["a" := true]>
                 (dbs_usage
                    (Pool.get_connection 0 0 0 "a" 1000 (pool_with [] 2 ∅)).2))
              (Pool.get_connection 0 0 0 "a" 1000 (pool_with [] 2 ∅)).2)
  ∧ Z.of_nat
      (length
         (_conns (Pool.get_connection 0 0 0 "a" 1000 (pool_with [] 2 ∅)).2))
    <= max_conn (pool_with [] 2 ∅).
Proof.
  apply (limited_get_connection_below_capacity 0 (pool_with [] 2 ∅)
           (Pool.get_connection 0 0 0 "a" 1000 (pool_with [] 2 ∅)).2
           "a" 0 0 0 0 1000 1%nat).
  - constructor.
  - simpl. lia.
  - reflexivity.
Defined.

(** A pool that is exactly full does not evict: the limited pool acquires
    as the base pool does and leaves [dbs_usage] as it was, so a key first
    acquired then is not marked in use, and the pool may end with
    [max_conn + 1] entries. *)
Theorem limited_get_connection_when_full
    (fuel : nat) (st : state) (k : string) (now_0 p d a ttl : Z) :
  all_live now_0 (_conns st) →
  all_live p (_conns st) →
  Z.of_nat (length (_conns st)) = max_conn st →
  ∃ r st',
    Limited.get_connection fuel now_0 p d a k ttl st = Some (r, st')
    ∧ (r, st') = Pool.get_connection p d a k ttl st
    ∧ dbs_usage st' = dbs_usage st
    ∧ (dict_get k (_conns st) = None → ∀ c, r = Ok c →
       Z.of_nat (length (_conns st')) = max_conn st + 1).
Proof.
  intros Hlive0 Hlive Hlen.
  destruct (Pool.get_connection p d a k ttl st) as [r st'] eqn:Hget.
  exists r, st'.
  split; [by rewrite limited_get_connection_at_capacity, Hget|].
  split; [done|].
  destruct (get_connection_shape p d a k ttl st Hlive) as (_ & _ & Hu & _).
  rewrite Hget in Hu. split; [done|].
  intros Hnone c ->. apply get_connection_ok_conns in Hget.
  rewrite Hget, dict_pop_absent, dict_set_absent by done.
  simpl. rewrite length_app. simpl. lia.
Qed.

Lemma limited_get_connection_when_full_witness :
  ∃ r st',
    Limited.get_connection 0 5 5 6 7 "b" 1000 one_busy = Some (r, st')
    ∧ (r, st') = Pool.get_connection 5 6 7 "b" 1000 one_busy
    ∧ dbs_usage st' = dbs_usage one_busy
    ∧ (dict_get "b" (_conns one_busy) = None → ∀ c, r = Ok c →
       Z.of_nat (length (_conns st')) = max_conn one_busy + 1).
Proof.
  apply (limited_get_connection_when_full 0 one_busy "b" 5 5 6 7 1000).
  - repeat constructor; simpl; lia.
  - repeat constructor; simpl; lia.
  - reflexivity.
Defined.

(** While some entry is past its deadline the limited pool cannot acquire
    either: its own prune pass raises [ValueError]. *)
Theorem limited_get_connection_raises_while_some_expired
    (fuel : nat) (st : state) (k : string) (now_0 p d a ttl : Z) :
  some_expired now_0 (_conns st) →
  outcome (Limited.get_connection fuel now_0 p d a k ttl st)
  = Some (Raise ValueError).
Proof.
  intros Hexp. unfold Limited.get_connection.
  destruct (prune_connections_outcome now_0 st)
    as [[Hlive _]|(k' & e' & _ & _ & ->)].
  - by apply all_live_not_expired in Hlive.
  - done.
Qed.

Lemma limited_get_connection_raises_while_some_expired_witness :
  outcome (Limited.get_connection 0 20 20 20 20 "c" 1000 two_expired)
  = Some (Raise ValueError).
Proof.
  apply (limited_get_connection_raises_while_some_expired
           0 two_expired "c" 20 20 20 20 1000).
  apply Exists_cons_hd. simpl. lia.
Defined.
Lemma evict_lru_empty st : _conns st = [] → Limited._evict_lru st = (Ok tt, st).
Proof.
  intros Hc. unfold Limited._evict_lru, mbind, M_bind, get_state.
  by rewrite Hc.
Qed.

Lemma evict_lru_NoDup st :
  NoDup (dict_keys (_conns st)) →
  NoDup (dict_keys (_conns (Limited._evict_lru st).2)).
Proof.
  intros Hnd. unfold Limited._evict_lru, mbind, M_bind, get_state.
  destruct (_conns st) as [|first others] eqn:Hc; simpl; [by rewrite Hc|].
  destruct (dbs_usage st !! Limited.min_last_access first others) as [[]|];
    simpl; [by rewrite Hc| |by rewrite Hc].
  unfold pop_conn. rewrite Hc.
  pose proof (dict_pop_NoDup (Limited.min_last_access first others)
                (first :: others) Hnd) as Hpop.
  by destruct (dict_pop (Limited.min_last_access first others)
                 (first :: others)) as [[?|] ?].
Qed.

(** The eviction loop on a pool none of whose entries is in use: [n]
    iterations remove the [n] entries in excess of the capacity. *)
Lemma evict_loop_idle (n : nat) : ∀ st fuel,
  all_idle st →
  0 <= max_conn st →
  length (_conns st) = (n + Z.to_nat (max_conn st))%nat →
  (n ≤ fuel)%nat →
  ∃ st',
    while fuel (fun st => max_conn st <? Z.of_nat (length (_conns st)))
          (fun _ => Limited._evict_lru) tt st = Some (Ok tt, st')
    ∧ Z.of_nat (length (_conns st')) = max_conn st
    ∧ dict_keys (_conns st') ⊆ dict_keys (_conns st)
    ∧ heap st' = heap st
    ∧ _stats st' = _stats st.
Proof.
  induction n as [|n IH]; intros st fuel Hidle Hmax Hlen Hfuel.
  - exists st.
    assert (Hc : (max_conn st <? Z.of_nat (length (_conns st))) = false)
      by (apply Z.ltb_ge; lia).
    split; [destruct fuel; simpl; by rewrite Hc|].
    split; [lia | done].
  - destruct fuel as [|fuel]; [lia|]. simpl.
    assert (Hc : (max_conn st <? Z.of_nat (length (_conns st))) = true)
      by (apply Z.ltb_lt; lia).
    rewrite Hc.
    destruct (_conns st) as [|first others] eqn:Hconns; [simpl in Hlen; lia|].
    pose proof (min_last_access_key first others) as Hkey.
    assert (Hu : dbs_usage st !! Limited.min_last_access first others
                 = Some false) by (apply Hidle; by rewrite Hconns).
    rewrite (evict_lru_idle st first others Hconns Hu).
    set (st1 := set_conns _ st).
    pose proof (dict_keys_pop_subseteq
                  (Limited.min_last_access first others) (_conns st)) as Hsub.
    pose proof (dict_pop_length (Limited.min_last_access first others)
                  (_conns st)) as Hpl.
    rewrite Hconns in Hpl. specialize (Hpl (dict_keys_get_Some _ _ Hkey)).
    destruct (IH st1 fuel) as (st' & Hw & Hl & Hk & Hh & Hs).
    + intros k Hk. apply Hidle. by apply Hsub.
    + done.
    + subst st1. cbn [_conns set_conns max_conn]. rewrite Hconns. lia.
    + lia.
    + exists st'. split; [done|]. split; [done|].
      split; [|done]. subst st1. cbn [_conns set_conns] in Hk.
      rewrite Hconns in Hk. rewrite Hconns in Hsub. set_solver.
Qed.

(** When the pool is at or over its capacity and none of its entries is
    marked in use, the eviction loop ends after [len - max_conn] iterations
    and leaves exactly [max_conn] of the entries; it closes no connection
    and moves no counter.  The base acquire then runs on what is left. *)
Theorem limited_get_connection_evicts_idle_entries
    (fuel : nat) (st : state) (k : string) (now_0 p d a ttl : Z) :
  all_live now_0 (_conns st) →
  all_idle st →
  0 <= max_conn st <= Z.of_nat (length (_conns st)) →
  (length (_conns st) - Z.to_nat (max_conn st) ≤ fuel)%nat →
  ∃ st',
    Limited.get_connection fuel now_0 p d a k ttl st
      = Some (Pool.get_connection p d a k ttl st')
    ∧ Z.of_nat (length (_conns st')) = max_conn st
    ∧ dict_keys (_conns st') ⊆ dict_keys (_conns st)
    ∧ heap st' = heap st
    ∧ _stats st' = _stats st.
Proof.
  intros Hlive Hidle [Hmax Hlen] Hfuel.
  destruct (evict_loop_idle
              (length (_conns st) - Z.to_nat (max_conn st)) st fuel)
    as (st' & Hw & Hrest); [done|done|lia|done|].
  exists st'. split; [|done].
  unfold Limited.get_connection.
  rewrite prune_connections_live by done.
  destruct (Z.ltb_spec (Z.of_nat (length (_conns st))) (max_conn st));
    [lia|].
  by rewrite Hw.
Qed.

Lemma limited_get_connection_evicts_idle_entries_witness :
  ∃ st',
    Limited.get_connection 1 5 5 6 7 "c" 1000 two_idle
      = Some (Pool.get_connection 5 6 7 "c" 1000 st')
    ∧ Z.of_nat (length (_conns st')) = max_conn two_idle
    ∧ dict_keys (_conns st') ⊆ dict_keys (_conns two_idle)
    ∧ heap st' = heap two_idle
    ∧ _stats st' = _stats two_idle.
Proof.
  apply (limited_get_connection_evicts_idle_entries
           1 two_idle "c" 5 5 6 7 1000).
  - repeat constructor; simpl; lia.
  - intros k Hk. simpl in Hk.
    apply elem_of_cons in Hk as [->|Hk]; [reflexivity|].
    apply elem_of_cons in Hk as [->|Hk]; [reflexivity|].
    inversion Hk.
  - simpl. lia.
  - simpl. lia.
Defined.

Lemma evict_loop_negative_capacity (n : nat) : ∀ st fuel,
  all_idle st →
  max_conn st < 0 →
  length (_conns st) = n →
  while fuel (fun st => max_conn st <? Z.of_nat (length (_conns st)))
        (fun _ => Limited._evict_lru) tt st = None.
Proof.
  induction n as [|n IH]; intros st fuel Hidle Hmax Hlen.
  - apply while_stuck; [apply Z.ltb_lt; lia|].
    intros []. apply evict_lru_empty. by destruct (_conns st).
  - assert (Hc : (max_conn st <? Z.of_nat (length (_conns st))) = true)
      by (apply Z.ltb_lt; lia).
    destruct fuel as [|fuel]; simpl; rewrite Hc; [done|].
    destruct (_conns st) as [|first others] eqn:Hconns; [done|].
    pose proof (min_last_access_key first others) as Hkey.
    assert (Hu : dbs_usage st !! Limited.min_last_access first others
                 = Some false) by (apply Hidle; by rewrite Hconns).
    rewrite (evict_lru_idle st first others Hconns Hu).
    pose proof (dict_keys_pop_subseteq
                  (Limited.min_last_access first others) (_conns st)) as Hsub.
    pose proof (dict_pop_length (Limited.min_last_access first others)
                  (_conns st)) as Hpl.
    rewrite Hconns in Hpl. specialize (Hpl (dict_keys_get_Some _ _ Hkey)).
    apply IH.
    + intros k Hk. apply Hidle. by apply Hsub.
    + done.
    + cbn [_conns set_conns]. rewrite Hconns. lia.
Qed.

(** A limited pool with a negative [max_conn] never hands out a connection:
    when nothing is past its deadline and no entry is marked in use (as in a
    pool just constructed), [get_connection] evicts every entry and then
    loops forever on the empty pool. *)
Theorem limited_get_connection_negative_capacity
    (fuel : nat) (st : state) (k : string) (now_0 p d a ttl : Z) :
  all_live now_0 (_conns st) →
  all_idle st →
  max_conn st < 0 →
  Limited.get_connection fuel now_0 p d a k ttl st = None.
Proof.
  intros Hlive Hidle Hmax. unfold Limited.get_connection.
  rewrite prune_connections_live by done.
  destruct (Z.ltb_spec (Z.of_nat (length (_conns st))) (max_conn st));
    [lia|].
  by rewrite (evict_loop_negative_capacity (length (_conns st))).
Qed.

Lemma limited_get_connection_negative_capacity_witness :
  Limited.get_connection 100 0 0 0 0 "a" 1000 (pool_with [] (-1) ∅) = None.
Proof.
  apply (limited_get_connection_negative_capacity
           100 (pool_with [] (-1) ∅) "a" 0 0 0 0 1000).
  - constructor.
  - intros k Hk. inversion Hk.
  - simpl. lia.
Defined.

(** The limited pool keeps one entry per key: whenever [get_connection]
    ends, with a connection or with an exception, the keys of the pool are
    distinct if they were before. *)
Theorem limited_get_connection_NoDup
    (fuel : nat) (st st' : state) (k : string) (now_0 p d a ttl : Z)
    (r : result conn) :
  NoDup (dict_keys (_conns st)) →
  Limited.get_connection fuel now_0 p d a k ttl st = Some (r, st') →
  NoDup (dict_keys (_conns st')).
Proof.
  intros Hnd. apply (prune_connections_NoDup now_0) in Hnd.
  unfold Limited.get_connection.
  destruct (Pool.prune_connections now_0 st) as [[[]|e] s]; simpl in Hnd;
    [|by intros [= _ <-]].
  destruct (Z.of_nat (length (_conns s)) <? max_conn s).
  - unfold mbind, M_bind, modify, mret, M_ret.
    pose proof (get_connection_NoDup p d a k ttl s Hnd) as Hg.
    destruct (Pool.get_connection p d a k ttl s) as [[c|e] s1]; simpl in *;
      by intros [= _ <-].
  - destruct (while fuel _ _ tt s) as [[[[]|e] s1]|] eqn:Hw; [| |done].
    + intros Hget.
      assert (Hs1 : NoDup (dict_keys (_conns s1))).
      { eapply (while_invariant (fun x => NoDup (dict_keys (_conns x))));
          [|exact Hnd|exact Hw].
        intros u x. apply evict_lru_NoDup. }
      pose proof (get_connection_NoDup p d a k ttl s1 Hs1) as Hg.
      injection Hget as Hget. by rewrite Hget in Hg.
    + intros [= _ <-].
      eapply (while_invariant (fun x => NoDup (dict_keys (_conns x))));
        [|exact Hnd|exact Hw].
      intros u x. apply evict_lru_NoDup.
Qed.

Lemma limited_get_connection_NoDup_witness :
  NoDup (dict_keys
           (_conns (Pool.get_connection 5 6 7 "b" 1000 one_busy).2)).
Proof.
  apply (limited_get_connection_NoDup 0 one_busy
           (Pool.get_connection 5 6 7 "b" 1000 one_busy).2 "b" 5 5 6 7 1000
           (Pool.get_connection 5 6 7 "b" 1000 one_busy).1).
  - repeat constructor. simpl. intros H. inversion H.
  - reflexivity.
Defined.

(** ** Shutting down *)

Lemma close_all_connections_cases (fuel : nat) (st : state) :
  Pool.close_all_connections (S fuel) st
  = Some (match _conns st with
          | [] => (Ok true, st)
          | _ :: rest => (Raise ValueError, set_conns rest st)
          end).
Proof.
  destruct (_conns st) as [|[k e] rest] eqn:Hc.
  - by apply close_all_connections_empty.
  - by apply (close_all_connections_raises fuel st k e rest).
Qed.

(** [close_all_connections] always ends, within its first iteration: on an
    empty pool it returns [True] and changes nothing; otherwise it pops the
    first key and raises [ValueError].  It never returns [False]. *)
Theorem close_all_connections_outcome (fuel : nat) (st : state) :
  Pool.close_all_connections (S fuel) st
  = Some (match _conns st with
          | [] => (Ok true, st)
          | _ :: rest => (Raise ValueError, set_conns rest st)
          end).
Proof. apply close_all_connections_cases. Qed.

(** The shutdown callback of the metadata job: when the pool still holds a
    connection, [close_all_connections] raises and the [shutdown_callback]
    of the check is never called; the outcome is the [ValueError], whatever
    the callback would have done. *)
Theorem shutdown_cb_skips_callback {A : Type}
    (fuel : nat) (shutdown_callback : state → result A * state)
    (st : state) (first : string * ConnectionWithTTLAndLastAccess)
    (rest : dict ConnectionWithTTLAndLastAccess) :
  _conns st = first :: rest →
  shutdown_cb (S fuel) shutdown_callback st
  = Some (Raise ValueError, set_conns rest st).
Proof.
  intros Hc. unfold shutdown_cb.
  by rewrite close_all_connections_cases, Hc.
Qed.

Lemma shutdown_cb_skips_callback_witness :
  shutdown_cb 1 (fun st => (Ok tt, set_conns [] st)) after_first_a
  = Some (Raise ValueError, set_conns [] after_first_a).
Proof.
  apply (shutdown_cb_skips_callback 0 (fun st => (Ok tt, set_conns [] st))
           after_first_a ("a", mkEntry 1%nat 1000000 0) []).
  reflexivity.
Defined.

(** ** Tags of the metadata job *)

Lemma filter_negb_filter {A : Type} (f : A → bool) (l : list A) :
  List.filter f (List.filter (fun x => negb (f x)) l) = [].
Proof.
  induction l as [|x l IH]; simpl; [done|].
  destruct (f x) eqn:Hf; simpl; [done|]. by rewrite Hf.
Qed.

Lemma filter_filter_comm {A : Type} (f g : A → bool) (l : list A) :
  List.filter f (List.filter g l) = List.filter g (List.filter f l).
Proof.
  induction l as [|x l IH]; simpl; [done|].
  destruct (f x) eqn:Hf, (g x) eqn:Hg; simpl; rewrite ?Hf, ?Hg, ?IH; done.
Qed.

Lemma startswith_db_tag db : startswith ("db:" ++ db) "db:" = true.
Proof. destruct db; reflexivity. Qed.

Lemma startswith_db_tag_internal db :
  startswith ("db:" ++ db) "dd.internal" = false.
Proof. reflexivity. Qed.

(** After [run_job] has computed the tags, [_dbtags(db)] holds exactly one
    tag that starts with "db:", the one for [db], and no tag that starts
    with "dd.internal". *)
Theorem dbtags_replaces_db_tag (_tags : list string) (db : string) :
  let t := _dbtags (Some (run_job_tags _tags).2) db [] in
  List.filter (fun x => startswith x "db:") t = ["db:" ++ db]
  ∧ List.filter (fun x => startswith x "dd.internal") t = [].
Proof.
  cbv zeta. unfold _dbtags, run_job_tags. cbn [snd truthy].
  set (tags := List.filter (fun t => negb (startswith t "dd.internal")) _tags).
  assert (Hhead :
    List.filter (fun x => startswith x "db:") ["db:" ++ db] = ["db:" ++ db]
    ∧ List.filter (fun x => startswith x "dd.internal") ["db:" ++ db] = []).
  { cbn [List.filter].
    by rewrite startswith_db_tag, startswith_db_tag_internal. }
  destruct Hhead as [Hdb Hdd].
  destruct (List.filter (fun t => negb (startswith t "db:")) tags)
    as [|x l] eqn:Hl; [done|].
  cbn [truthy default]. unfold id.
  rewrite <- Hl, !List.filter_app, Hdb, Hdd. split.
  - pose proof (filter_negb_filter (fun x => startswith x "db:") tags) as H.
    cbv beta in H. by rewrite H.
  - rewrite (filter_filter_comm _ (fun t => negb (startswith t "db:"))).
    pose proof (filter_negb_filter (fun x => startswith x "dd.internal")
                  _tags) as H.
    cbv beta in H. unfold tags. by rewrite H.
Qed.

(** Every tag of the job that starts neither with "dd.internal" nor with
    "db:" is among the tags that [_dbtags] returns after [run_job]. *)
Theorem dbtags_keeps_other_tags
    (_tags extra_tags : list string) (db x : string) :
  x ∈ _tags →
  startswith x "dd.internal" = false →
  startswith x "db:" = false →
  x ∈ _dbtags (Some (run_job_tags _tags).2) db extra_tags.
Proof.
  intros Hin Hdd Hdb.
  assert (Hx : x ∈ (run_job_tags _tags).2).
  { unfold run_job_tags. cbn [snd].
    apply list_elem_of_In, List.filter_In. rewrite Hdb. split; [|done].
    apply List.filter_In. rewrite Hdd. split; [|done].
    by apply list_elem_of_In. }
  unfold _dbtags.
  destruct ((run_job_tags _tags).2) as [|y l] eqn:Hl; [by inversion Hx|].
  cbn [truthy default]. set_solver.
Qed.

Lemma dbtags_keeps_other_tags_witness :
  "env:prod"
  ∈ _dbtags (Some (run_job_tags ["db:main"; "dd.internal:x"; "env:prod"]).2)
      "orders" ["schema:s"].
Proof.
  apply (dbtags_keeps_other_tags
           ["db:main"; "dd.internal:x"; "env:prod"] ["schema:s"]
           "orders" "env:prod").
  - apply list_elem_of_In. simpl. tauto.
  - reflexivity.
  - reflexivity.
Defined.
(** ** Time to live *)

(** An acquired connection stays in the pool as long as the clock has not
    passed [ttl_ms] milliseconds after the acquire: a prune pass at a time
    up to the deadline leaves the key with the connection that was
    returned. *)
Theorem acquired_entry_survives_prune_until_deadline
    (st st' : state) (k : string) (p d a ttl now : Z) (c : conn) :
  NoDup (dict_keys (_conns st)) →
  Pool.get_connection p d a k ttl st = (Ok c, st') →
  now <= d + 1000 * ttl →
  dict_get k (_conns (Pool.prune_connections now st').2)
  = Some (mkEntry c (d + 1000 * ttl) a).
Proof.
  intros Hnd Hget Hnow.
  pose proof (get_connection_NoDup p d a k ttl st Hnd) as Hnd'.
  rewrite Hget in Hnd'.
  apply get_connection_ok_stored in Hget as [Hstored _].
  by apply prune_connections_live_entry.
Qed.

Lemma acquired_entry_survives_prune_until_deadline_witness :
  dict_get "a" (_conns (Pool.prune_connections 1000000 after_first_a).2)
  = Some (mkEntry 1%nat (0 + 1000 * 1000) 0).
Proof.
  apply (acquired_entry_survives_prune_until_deadline
           (pool_with [] 0 ∅) after_first_a "a" 0 0 0 1000 1000000 1%nat).
  - constructor.
  - reflexivity.
  - lia.
Defined.

(** Once the clock has passed the deadline of an acquired connection, and
    no other entry is past its own, a prune pass counts the entry as pruned
    and removes it from the pool; the pass ends with [ValueError] and the
    connection is not closed. *)
Theorem acquired_entry_is_pruned_after_deadline
    (st st' : state) (k : string) (p d a ttl now : Z) (c : conn) :
  NoDup (dict_keys (_conns st)) →
  Pool.get_connection p d a k ttl st = (Ok c, st') →
  d + 1000 * ttl < now →
  (∀ k' e', k' ≠ k → dict_get k' (_conns st') = Some e' →
            now <= deadline e') →
  Pool.prune_connections now st'
    = (Raise ValueError,
       set_conns (dict_pop k (_conns st')).2 (count_pruned st'))
  ∧ dict_get k (dict_pop k (_conns st')).2 = None
  ∧ closed (heap (Pool.prune_connections now st').2 c) = closed (heap st' c).
Proof.
  intros Hnd Hget Hnow Hothers.
  pose proof (get_connection_NoDup p d a k ttl st Hnd) as Hnd'.
  rewrite Hget in Hnd'. simpl in Hnd'.
  apply get_connection_ok_stored in Hget as [Hstored _].
  destruct (prune_connections_outcome now st')
    as [[Hlive _]|(k' & e' & Hin & Hexp & Hp)].
  - exfalso. unfold all_live in Hlive. rewrite Forall_forall in Hlive.
    assert (Hk : (k, mkEntry c (d + 1000 * ttl) a) ∈ _conns st').
    { clear -Hstored. induction (_conns st') as [|[k0 v0] l IH];
        simpl in *; [done|].
      destruct (String.eqb_spec k0 k) as [->|?]; [|set_solver].
      simplify_eq. set_solver. }
    specialize (Hlive _ Hk). simpl in Hlive. lia.
  - apply (dict_get_elem_of _ _ _ Hnd') in Hin.
    destruct (decide (k' = k)) as [->|Hne].
    + rewrite Hp. split; [done|]. split; [by apply dict_get_pop_None|done].
    + specialize (Hothers k' e' Hne Hin). lia.
Qed.

Lemma acquired_entry_is_pruned_after_deadline_witness :
  Pool.prune_connections 1000001 after_first_a
    = (Raise ValueError,
       set_conns (dict_pop "a" (_conns after_first_a)).2
                 (count_pruned after_first_a))
  ∧ dict_get "a" (dict_pop "a" (_conns after_first_a)).2 = None
  ∧ closed (heap (Pool.prune_connections 1000001 after_first_a).2 1%nat)
    = closed (heap after_first_a 1%nat).
Proof.
  apply (acquired_entry_is_pruned_after_deadline
           (pool_with [] 0 ∅) after_first_a "a" 0 0 0 1000 1000001 1%nat).
  - constructor.
  - reflexivity.
  - lia.
  - intros k' e' Hne Hget.
    change (_conns after_first_a)
      with [("a", mkEntry 1%nat 1000000 0)] in Hget.
    cbn [dict_get] in Hget.
    destruct (String.eqb_spec "a" k') as [<-|?]; [done | discriminate].
Defined.

(** ** A deadline that does not exist *)


